(** * lis.py: the reader, the environment model and the evaluator

    A shallow embedding of [mylis/mylis_2/lis.py] (a Scheme interpreter in
    Python, after Norvig and Ramalho) together with the properties that its
    design document states about it.

    Conventions of the embedding.
    - Python [str] is [string]; every character is read as a code point
      below 256.
    - Python [int] is [Z].  Python [float] and the table of primitive
      procedures belong to the host: they are the classes [Host] and
      [Builtins], over which the interpreter and its properties are stated;
      the module [IntegerHost] gives the instance on which programs are
      run.
    - Python dictionaries are objects with identity: they live in a store
      and are named by their index; an [Environment] is a [ChainMap], i.e.
      the list [maps] of the mappings it chains.
    - Exceptions are values of [Exception]; a computation is an [Outcome].
      Loops that Python runs without a bound take a [fuel] argument and
      answer [OutOfFuel] when it is used up; the interpreter's recursion
      limit is not modelled. *)

From Stdlib Require Import Ascii String ZArith Lia DecimalString DecimalZ DecimalPos.
From stdpp Require Import base option list strings gmap.

Local Open Scope Z_scope.
Local Open Scope string_scope.
Local Open Scope list_scope.
Set Warnings "-register-all".

(** ** Host strings *)

Module PyStr.

(** [str.isspace] on the code points below 256. *)
Definition is_space (c : ascii) : bool :=
  let n := Ascii.N_of_ascii c in
  ((9 <=? n)%N && (n <=? 13)%N) || ((28 <=? n)%N && (n <=? 32)%N)
  || (n =? 133)%N || (n =? 160)%N.

(** [s.replace(old, new)] for a pattern [old] of one character. *)
Fixpoint replace (old : ascii) (new : string) (s : string) : string :=
  match s with
  | EmptyString => EmptyString
  | String c s' =>
      if Ascii.eqb c old then new +:+ replace old new s'
      else String c (replace old new s')
  end.

Definition flush (cur : string) : list string :=
  match cur with EmptyString => [] | _ => [cur] end.

(** [s.split()]: the maximal runs of characters that are not white space;
    [cur] is the run being read. *)
Fixpoint split_from (cur : string) (s : string) : list string :=
  match s with
  | EmptyString => flush cur
  | String c s' =>
      if is_space c then flush cur ++ split_from EmptyString s'
      else split_from (cur +:+ String c EmptyString) s'
  end.

Definition split (s : string) : list string := split_from EmptyString s.

(** [sep.join(l)] *)
Fixpoint join (sep : string) (l : list string) : string :=
  match l with
  | [] => EmptyString
  | [x] => x
  | x :: l' => x +:+ sep +:+ join sep l'
  end.

(** [str(n)] for an [int]. *)
Definition str_int (n : Z) : string := NilZero.string_of_int (Z.to_int n).

Definition digit (c : ascii) : option (Decimal.uint -> Decimal.uint) :=
  match c with
  | "0"%char => Some Decimal.D0 | "1"%char => Some Decimal.D1
  | "2"%char => Some Decimal.D2 | "3"%char => Some Decimal.D3
  | "4"%char => Some Decimal.D4 | "5"%char => Some Decimal.D5
  | "6"%char => Some Decimal.D6 | "7"%char => Some Decimal.D7
  | "8"%char => Some Decimal.D8 | "9"%char => Some Decimal.D9
  | _ => None
  end.

(** The digit part of an integer literal: digits, with single underscores
    allowed between two digits. *)
Fixpoint digits (s : string) : option Decimal.uint :=
  match s with
  | EmptyString => None
  | String c s' =>
      match digit c with
      | None => None
      | Some d =>
          match s' with
          | EmptyString => Some (d Decimal.Nil)
          | String "_"%char s'' => d <$> digits s''
          | _ => d <$> digits s'
          end
      end
  end.

(** [int(token)] for a token without white space; [None] stands for
    [ValueError]. *)
Definition int (token : string) : option Z :=
  match token with
  | String "+"%char s => Z.of_uint <$> digits s
  | String "-"%char s => (fun d => - Z.of_uint d) <$> digits s
  | _ => Z.of_uint <$> digits token
  end.

End PyStr.

(** ** The host: floating point and primitive procedures

    [float_of_string] is Python's [float(token)] ([None] stands for
    [ValueError]), [float_str] is [str(x)] and [float_bool] is [bool(x)] on a
    float; [builtin] names the host callables that an environment can hold
    (the entries of [standard_env]). *)

Class Host : Type := {
  float : Type;
  float_of_string : string -> option float;
  float_str : float -> string;
  float_bool : float -> bool;
  builtin : Type;
}.

(** ** Exceptions and outcomes *)

Inductive Exception : Type :=
| UnexpectedEndOfSource
| UnexpectedCloseParen
| UndefinedSymbol (var : string)
| InvalidSyntax (source : string)
| EvaluatorException (source : string)
| KeyError (key : string)
| TypeError
| IndexError
| UnboundLocalError
| HostException (name : string).

Inductive Outcome (A : Type) : Type :=
| Return (a : A)
| Raise (e : Exception)
| OutOfFuel.

Arguments Return {A} a.
Arguments Raise {A} e.
Arguments OutOfFuel {A}.

#[global] Instance Outcome_ret : MRet Outcome := fun A a => Return a.
#[global] Instance Outcome_bind : MBind Outcome := fun A B f m =>
  match m with
  | Return a => f a
  | Raise e => Raise e
  | OutOfFuel => OutOfFuel
  end.
#[global] Instance Outcome_fmap : FMap Outcome := fun A B f m =>
  match m with
  | Return a => Return (f a)
  | Raise e => Raise e
  | OutOfFuel => OutOfFuel
  end.

Section Interpreter.
Context `{Host}.

(** ** Expressions, parse, tokenize, and read_from_tokens *)

(** [Expression = Atom | list], [Atom = int | float | Symbol]. *)
Inductive Expression : Type :=
| Int (x : Z)
| Float (x : float)
| Sym (s : string)
| List (items : list Expression).

Definition tokenize (s : string) : list string :=
  PyStr.split (PyStr.replace ")" " ) " (PyStr.replace "(" " ( " s)).

Definition parse_atom (token : string) : Expression :=
  match PyStr.int token with
  | Some x => Int x
  | None =>
      match float_of_string token with
      | Some x => Float x
      | None => Sym token
      end
  end.

(** [read_from_tokens] pops tokens off a shared list; here it returns the
    expression together with the tokens that are left.  [read_list] is its
    [while tokens and tokens[0] != ')'] loop, [exp] the list being built. *)
Fixpoint read_from_tokens (fuel : nat) (tokens : list string)
  : Outcome (Expression * list string) :=
  match fuel with
  | O => OutOfFuel
  | S fuel' =>
      match tokens with
      | [] => Raise UnexpectedEndOfSource
      | token :: tokens' =>
          if String.eqb "(" token then read_list fuel' [] tokens'
          else if String.eqb ")" token then Raise UnexpectedCloseParen
          else Return (parse_atom token, tokens')
      end
  end
with read_list (fuel : nat) (exp : list Expression) (tokens : list string)
  : Outcome (Expression * list string) :=
  match fuel with
  | O => OutOfFuel
  | S fuel' =>
      match tokens with
      | [] => Raise UnexpectedEndOfSource
      | token :: tokens' =>
          if String.eqb token ")" then Return (List exp, tokens')
          else
            '(e, rest) ← read_from_tokens fuel' tokens;
            read_list fuel' (exp ++ [e]) rest
      end
  end.

(** Fuel that [read_from_tokens] never uses up (see
    [read_from_tokens_complete] and [read_from_tokens_unclosed]). *)
Definition read_fuel (tokens : list string) : nat := S (2 * length tokens).

Definition parse (source : string) : Outcome Expression :=
  let tokens := tokenize source in
  fst <$> read_from_tokens (read_fuel tokens) tokens.

Fixpoint lispstr (exp : Expression) : string :=
  match exp with
  | List items => "(" +:+ PyStr.join " " (map lispstr items) +:+ ")"
  | Int x => PyStr.str_int x
  | Float x => float_str x
  | Sym s => s
  end.

(** ** Environments and values *)

(** A mapping that a [ChainMap] chains: a dictionary, by reference, or
    another [ChainMap], by its [maps].  [Environment(local_env,
    definition_env)] is [[Dict r; Chain definition_env]]. *)
Inductive Mapping : Type :=
| Dict (ref : nat)
| Chain (maps : list Mapping).

Definition Environment : Type := list Mapping.

Inductive Value : Type :=
| VNone
| VBool (b : bool)
| VInt (x : Z)
| VFloat (x : float)
| VSym (s : string)
| VList (items : list Value)
| VProcedure (parms : list Expression) (body : list Expression)
             (definition_env : Environment)
| VBuiltin (f : builtin).

Definition Store : Type := list (gmap string Value).

Definition dict_at (st : Store) (ref : nat) : gmap string Value :=
  default ∅ (st !! ref).

Definition dict_setitem (ref : nat) (key : string) (value : Value) (st : Store)
  : Store :=
  <[ref := <[key := value]> (dict_at st ref)]> st.

Fixpoint first_some {A B : Type} (f : A -> option B) (l : list A) : option B :=
  match l with
  | [] => None
  | a :: l' => match f a with Some b => Some b | None => first_some f l' end
  end.

(** [mapping[key]]; [None] stands for [KeyError]. *)
Fixpoint getitem (st : Store) (key : string) (m : Mapping) : option Value :=
  match m with
  | Dict ref => dict_at st ref !! key
  | Chain maps => first_some (getitem st key) maps
  end.

(** [key in mapping] *)
Fixpoint contains (st : Store) (key : string) (m : Mapping) : bool :=
  match m with
  | Dict ref => bool_decide (is_Some (dict_at st ref !! key))
  | Chain maps => existsb (contains st key) maps
  end.

(** [mapping[key] = value]; on a [ChainMap] this is
    [self.maps[0][key] = value]. *)
Fixpoint setitem (m : Mapping) (key : string) (value : Value) (st : Store)
  : Outcome Store :=
  match m with
  | Dict ref => Return (dict_setitem ref key value st)
  | Chain maps =>
      match maps with
      | [] => Raise IndexError
      | m0 :: _ => setitem m0 key value st
      end
  end.

(** [Environment.change] *)
Fixpoint change_maps (maps : list Mapping) (key : string) (value : Value)
  (st : Store) : Outcome Store :=
  match maps with
  | [] => Raise (KeyError key)
  | map :: maps' =>
      if contains st key map then setitem map key value st
      else change_maps maps' key value st
  end.

Definition change (env : Environment) (key : string) (value : Value)
  (st : Store) : Outcome Store :=
  change_maps env key value st.

(** [dict(zip(parms, args))].  A parameter that is a list cannot be hashed.
    A parameter that is a number is a key which no lookup of the evaluator
    can reach (it only looks up strings), so the model leaves it out. *)
Fixpoint zip_dict (parms : list Expression) (args : list Value)
  (d : gmap string Value) : Outcome (gmap string Value) :=
  match parms, args with
  | p :: parms', a :: args' =>
      match p with
      | Sym s => zip_dict parms' args' (<[s := a]> d)
      | Int _ | Float _ => zip_dict parms' args' d
      | List _ => Raise TypeError
      end
  | _, _ => Return d
  end.

(** [Procedure.application_env] *)
Definition application_env (parms : list Expression)
  (definition_env : Environment) (args : list Value) (st : Store)
  : Outcome (Environment * Store) :=
  local_env ← zip_dict parms args ∅;
  Return ([Dict (length st); Chain definition_env], st ++ [local_env]).

(** Python's truth value of an object. *)
Definition truthy (v : Value) : bool :=
  match v with
  | VNone => false
  | VBool b => b
  | VInt x => negb (x =? 0)%Z
  | VFloat x => float_bool x
  | VSym s => negb (String.eqb s "")
  | VList items => match items with [] => false | _ => true end
  | VProcedure _ _ _ => true
  | VBuiltin _ => true
  end.

(** An expression taken as a value, as [quote] returns it. *)
Fixpoint value_of (exp : Expression) : Value :=
  match exp with
  | Int x => VInt x
  | Float x => VFloat x
  | Sym s => VSym s
  | List items => VList (map value_of items)
  end.

End Interpreter.

(** [call_builtin call f args st] is the host call of [f] on the arguments [args]; [call] is how
    the host calls back a callable value it was given (as [apply] does). *)
Class Builtins `{Host} : Type := {
  call_builtin :
    (Value -> list Value -> Store -> Outcome (Value * Store)) ->
    builtin -> list Value -> Store -> Outcome (Value * Store);
}.

Section Evaluator.
Context `{Builtins}.

Definition TCO_ENABLED : bool := true.

(** *** Special forms

    The helpers take [eval], the evaluator they call back. *)
Section Forms.
Variable eval : Expression -> Environment -> Store -> Outcome (Value * Store).

Definition is_symbol (name : string) (exp : Expression) : bool :=
  match exp with
  | Sym s => String.eqb name s
  | _ => false
  end.

(** [for exp in body: result = evaluate(exp, env)] followed by
    [return result]. *)
Fixpoint eval_body (result : option Value) (body : list Expression)
  (env : Environment) (st : Store) : Outcome (Value * Store) :=
  match body with
  | [] =>
      match result with
      | Some v => Return (v, st)
      | None => Raise UnboundLocalError
      end
  | exp :: body' =>
      '(v, st') ← eval exp env st;
      eval_body (Some v) body' env st'
  end.

Fixpoint cond_form (clauses : list Expression) (env : Environment)
  (st : Store) : Outcome (Value * Store) :=
  match clauses with
  | [] => Return (VNone, st)
  | clause :: clauses' =>
      match clause with
      | List (test :: body) =>
          if is_symbol "else" test then eval_body None body env st
          else
            '(t, st') ← eval test env st;
            if truthy t then eval_body None body env st'
            else cond_form clauses' env st'
      | _ => cond_form clauses' env st
      end
  end.

Fixpoint or_loop (value : Value) (expressions : list Expression)
  (env : Environment) (st : Store) : Outcome (Value * Store) :=
  match expressions with
  | [] => Return (value, st)
  | exp :: expressions' =>
      '(v, st') ← eval exp env st;
      if truthy v then Return (v, st') else or_loop v expressions' env st'
  end.

Definition or_form (expressions : list Expression) (env : Environment)
  (st : Store) : Outcome (Value * Store) :=
  or_loop (VBool false) expressions env st.

Fixpoint and_loop (value : Value) (expressions : list Expression)
  (env : Environment) (st : Store) : Outcome (Value * Store) :=
  match expressions with
  | [] => Return (value, st)
  | exp :: expressions' =>
      '(v, st') ← eval exp env st;
      if negb (truthy v) then Return (v, st') else and_loop v expressions' env st'
  end.

Definition and_form (expressions : list Expression) (env : Environment)
  (st : Store) : Outcome (Value * Store) :=
  and_loop (VBool true) expressions env st.

(** [for exp in expressions[:-1]: evaluate(exp, env)] *)
Fixpoint eval_each (expressions : list Expression) (env : Environment)
  (st : Store) : Outcome Store :=
  match expressions with
  | [] => Return st
  | exp :: expressions' =>
      '(_, st') ← eval exp env st;
      eval_each expressions' env st'
  end.

(** [[evaluate(arg, env) for arg in args]] *)
Fixpoint eval_args (args : list Expression) (env : Environment)
  (st : Store) : Outcome (list Value * Store) :=
  match args with
  | [] => Return ([], st)
  | arg :: args' =>
      '(v, st1) ← eval arg env st;
      '(vs, st2) ← eval_args args' env st1;
      Return (v :: vs, st2)
  end.

(** [Procedure.__call__] *)
Definition Procedure_call (parms body : list Expression)
  (definition_env : Environment) (args : list Value) (st : Store)
  : Outcome (Value * Store) :=
  '(env, st') ← application_env parms definition_env args st;
  eval_body None body env st'.

End Forms.

(** *** eval *)

Definition KEYWORDS_1 : list string := ["quote"; "if"; "define"; "lambda"].
Definition KEYWORDS_2 : list string := ["set!"; "cond"; "or"; "and"; "begin"].
Definition KEYWORDS : list string := KEYWORDS_1 ++ KEYWORDS_2.

(** [op in KEYWORDS] *)
Definition in_KEYWORDS (op : Expression) : bool :=
  existsb (fun k => is_symbol k op) KEYWORDS.

(** The [case] that [match exp] selects, with what its pattern binds. *)
Inductive Case : Type :=
| CaseInt (x : Z)
| CaseFloat (x : float)
| CaseSymbol (var : string)
| CaseQuote (exp : Expression)
| CaseIf (test consequence alternative : Expression)
| CaseDefine (var : string) (value_exp : Expression)
| CaseSet (var : string) (value_exp : Expression)
| CaseDefineProcedure (name : string) (parms body : list Expression)
| CaseLambda (parms body : list Expression)
| CaseCond (clauses : list Expression)
| CaseOr (expressions : list Expression)
| CaseAnd (expressions : list Expression)
| CaseBegin (expressions : list Expression)
| CaseApply (op : Expression) (args : list Expression)
| CaseDefault.

(** One function per sequence pattern of [evaluate], in the order of the
    source; each answers what the pattern binds, or [None] when the
    pattern or its guard fails.  Each compares the head of the list with
    its keyword first and then looks at the rest of the list. *)
Definition case_quote (items : list Expression) : option Expression :=
  match items with
  | head :: rest =>
      if is_symbol "quote" head || is_symbol "'" head then
        match rest with
        | [exp] => Some exp
        | _ => None
        end
      else None
  | [] => None
  end.

Definition case_if (items : list Expression)
  : option (Expression * Expression * Expression) :=
  match items with
  | head :: rest =>
      if is_symbol "if" head then
        match rest with
        | [test; consequence; alternative] =>
            Some (test, consequence, alternative)
        | _ => None
        end
      else None
  | [] => None
  end.

Definition case_named (keyword : string) (items : list Expression)
  : option (string * Expression) :=
  match items with
  | head :: rest =>
      if is_symbol keyword head then
        match rest with
        | [Sym var; value_exp] => Some (var, value_exp)
        | _ => None
        end
      else None
  | [] => None
  end.

Definition case_define_procedure (items : list Expression)
  : option (string * list Expression * list Expression) :=
  match items with
  | head :: rest =>
      if is_symbol "define" head then
        match rest with
        | List (Sym name :: parms) :: body =>
            if (0 <? length body)%nat then Some (name, parms, body) else None
        | _ => None
        end
      else None
  | [] => None
  end.

Definition case_lambda (items : list Expression)
  : option (list Expression * list Expression) :=
  match items with
  | head :: rest =>
      if is_symbol "lambda" head then
        match rest with
        | List parms :: body =>
            if (0 <? length body)%nat then Some (parms, body) else None
        | _ => None
        end
      else None
  | [] => None
  end.

Definition case_rest (keyword : string) (items : list Expression)
  : option (list Expression) :=
  match items with
  | head :: rest => if is_symbol keyword head then Some rest else None
  | _ => None
  end.

Definition case_apply (items : list Expression)
  : option (Expression * list Expression) :=
  match items with
  | op :: args => if negb (in_KEYWORDS op) then Some (op, args) else None
  | _ => None
  end.

Definition match_exp (exp : Expression) : Case :=
  match exp with
  | Int x => CaseInt x
  | Float x => CaseFloat x
  | Sym var => CaseSymbol var
  | List items =>
      if case_quote items is Some exp' then CaseQuote exp' else
      if case_if items is Some (t, c, a) then CaseIf t c a else
      if case_named "define" items is Some (var, e) then CaseDefine var e else
      if case_named "set!" items is Some (var, e) then CaseSet var e else
      if case_define_procedure items is Some (name, parms, body)
      then CaseDefineProcedure name parms body else
      if case_lambda items is Some (parms, body) then CaseLambda parms body else
      if case_rest "cond" items is Some clauses then CaseCond clauses else
      if case_rest "or" items is Some es then CaseOr es else
      if case_rest "and" items is Some es then CaseAnd es else
      if case_rest "begin" items is Some es then CaseBegin es else
      if case_apply items is Some (op, args) then CaseApply op args else
      CaseDefault
  end.

(** [evaluate] runs [while True: match exp: ...]; a case that rebinds
    [exp] (and [env]) and goes round the loop again is a call of
    [evaluate] on the new pair.  [invoke] is the host call of [proc] on [args]. *)
Fixpoint evaluate (fuel : nat) (exp : Expression) (env : Environment)
  (st : Store) {struct fuel} : Outcome (Value * Store) :=
  match fuel with
  | O => OutOfFuel
  | S fuel' =>
      match match_exp exp with
      | CaseInt x => Return (VInt x, st)
      | CaseFloat x => Return (VFloat x, st)
      | CaseSymbol var =>
          match getitem st var (Chain env) with
          | Some v => Return (v, st)
          | None => Raise (UndefinedSymbol var)
          end
      | CaseQuote exp' => Return (value_of exp', st)
      | CaseIf test consequence alternative =>
          '(t, st') ← evaluate fuel' test env st;
          if truthy t then evaluate fuel' consequence env st'
          else evaluate fuel' alternative env st'
      | CaseDefine var value_exp =>
          '(v, st1) ← evaluate fuel' value_exp env st;
          st2 ← setitem (Chain env) var v st1;
          Return (VNone, st2)
      | CaseSet var value_exp =>
          '(v, st1) ← evaluate fuel' value_exp env st;
          st2 ← change env var v st1;
          Return (VNone, st2)
      | CaseDefineProcedure name parms body =>
          st' ← setitem (Chain env) name (VProcedure parms body env) st;
          Return (VNone, st')
      | CaseLambda parms body => Return (VProcedure parms body env, st)
      | CaseCond clauses => cond_form (evaluate fuel') clauses env st
      | CaseOr expressions => or_form (evaluate fuel') expressions env st
      | CaseAnd expressions => and_form (evaluate fuel') expressions env st
      | CaseBegin expressions =>
          st' ← eval_each (evaluate fuel') (removelast expressions) env st;
          match last expressions with
          | None => Raise IndexError
          | Some exp' => evaluate fuel' exp' env st'
          end
      | CaseApply op args =>
          '(proc, st1) ← evaluate fuel' op env st;
          '(values, st2) ← eval_args (evaluate fuel') args env st1;
          match TCO_ENABLED, proc with
          | true, VProcedure parms body definition_env =>
              '(env', st3) ← application_env parms definition_env values st2;
              evaluate fuel' (List (Sym "begin" :: body)) env' st3
          | _, _ =>
              match invoke fuel' proc values st2 with
              | Raise TypeError => Raise (EvaluatorException (lispstr exp))
              | r => r
              end
          end
      | CaseDefault => Raise (InvalidSyntax (lispstr exp))
      end
  end
with invoke (fuel : nat) (proc : Value) (args : list Value) (st : Store)
  {struct fuel} : Outcome (Value * Store) :=
  match fuel with
  | O => OutOfFuel
  | S fuel' =>
      match proc with
      | VProcedure parms body definition_env =>
          Procedure_call (evaluate fuel') parms body definition_env args st
      | VBuiltin f => call_builtin (invoke fuel') f args st
      | _ => Raise TypeError
      end
  end.

(** The loop of [repl] without its input and output:
    [val = evaluate(parse(source), global_env)] for each source text in
    turn; the values are collected instead of printed. *)
Fixpoint repl (fuel : nat) (sources : list string) (global_env : Environment)
  (st : Store) : Outcome (list Value * Store) :=
  match sources with
  | [] => Return ([], st)
  | source :: sources' =>
      exp ← parse source;
      '(val, st1) ← evaluate fuel exp global_env st;
      '(vals, st2) ← repl fuel sources' global_env st1;
      Return (val :: vals, st2)
  end.

End Evaluator.

(** ** A host for the integer fragment

    The host of programs without floating point: [float] is empty, so that
    [float(token)] accepts no token, and the primitive procedures are those
    entries of [standard_env] listed in [Primitive].  On a source text none
    of whose tokens is a float literal, and in an environment that holds
    only these primitives, the model runs as the interpreter does. *)

Module IntegerHost.

Inductive Primitive : Type :=
| op_add | op_sub | op_not
| prim_apply | prim_car | prim_cdr | prim_cons | prim_length | prim_list
| prim_null.

#[export] Instance host : Host := {|
  float := Empty_set;
  float_of_string := fun _ => None;
  float_str := fun x => match x with end;
  float_bool := fun x => match x with end;
  builtin := Primitive;
|}.

(** An [int] operand; [bool] is a subclass of [int]. *)
Definition as_int (v : Value) : option Z :=
  match v with
  | VInt x => Some x
  | VBool b => Some (if b then 1 else 0)
  | _ => None
  end.

Definition chars (s : string) : list Value :=
  (fun c => VSym (String c EmptyString)) <$> list_ascii_of_string s.

(** The host functions behind ['+'], ['-'], ['not'], ['apply'], ['car'],
    ['cdr'], ['cons'], ['length'], ['list'] and ['null?'] in
    [standard_env]. *)
Definition call_primitive
  (call : Value -> list Value -> Store -> Outcome (Value * Store))
  (f : Primitive) (args : list Value) (st : Store) : Outcome (Value * Store) :=
  match f, args with
  | op_add, [a; b] =>
      match as_int a, as_int b, a, b with
      | Some x, Some y, _, _ => Return (VInt (x + y), st)
      | _, _, VList l1, VList l2 => Return (VList (l1 ++ l2), st)
      | _, _, VSym s1, VSym s2 => Return (VSym (s1 +:+ s2), st)
      | _, _, _, _ => Raise TypeError
      end
  | op_sub, [a; b] =>
      match as_int a, as_int b with
      | Some x, Some y => Return (VInt (x - y), st)
      | _, _ => Raise TypeError
      end
  | op_not, [a] => Return (VBool (negb (truthy a)), st)
  | prim_apply, [proc; VList vs] => call proc vs st
  | prim_apply, [proc; VSym s] => call proc (chars s) st
  | prim_car, [VList (x :: _)] => Return (x, st)
  | prim_car, [VList []] => Raise IndexError
  | prim_car, [VSym (String c _)] => Return (VSym (String c EmptyString), st)
  | prim_car, [VSym EmptyString] => Raise IndexError
  | prim_cdr, [VList l] => Return (VList (tail l), st)
  | prim_cdr, [VSym s] => Return (VSym (String.substring 1 (String.length s - 1) s), st)
  | prim_cons, [x; VList y] => Return (VList (x :: y), st)
  | prim_length, [VList l] => Return (VInt (Z.of_nat (length l)), st)
  | prim_length, [VSym s] => Return (VInt (Z.of_nat (String.length s)), st)
  | prim_list, _ => Return (VList args, st)
  | prim_null, [a] =>
      Return (VBool match a with VList [] => true | _ => false end, st)
  | _, _ => Raise TypeError
  end.

#[export] Instance builtins : Builtins := {| call_builtin := call_primitive |}.

Definition global_dict : gmap string Value :=
  list_to_map [
    ("+", VBuiltin op_add); ("-", VBuiltin op_sub); ("not", VBuiltin op_not);
    ("apply", VBuiltin prim_apply); ("car", VBuiltin prim_car);
    ("cdr", VBuiltin prim_cdr); ("cons", VBuiltin prim_cons);
    ("length", VBuiltin prim_length); ("list", VBuiltin prim_list);
    ("null?", VBuiltin prim_null)
  ].

(** [standard_env()]: one [Environment] whose only map is the dictionary
    of primitives, at reference 0 of a store that holds nothing else. *)
Definition global_env : Environment := [Dict 0].
Definition global_store : Store := [global_dict].

End IntegerHost.

(** ** Vocabulary of the properties *)

Section Vocabulary.
Context `{Host}.

(** A complete expression as the reader meets it: tokens grouped by
    balanced parentheses. *)
Inductive Tree : Type :=
| Leaf (token : string)
| Node (children : list Tree).

Fixpoint flatten (t : Tree) : list string :=
  match t with
  | Leaf token => [token]
  | Node children => "(" :: concat (map flatten children) ++ [")"]
  end.

Definition is_paren (token : string) : bool :=
  String.eqb token "(" || String.eqb token ")".

Fixpoint leaves_ok (t : Tree) : bool :=
  match t with
  | Leaf token => negb (is_paren token)
  | Node children => forallb leaves_ok children
  end.

Fixpoint expression_of (t : Tree) : Expression :=
  match t with
  | Leaf token => parse_atom token
  | Node children => List (map expression_of children)
  end.

(** The tokens of the rendering of an expression, grouped. *)
Fixpoint tree_of (exp : Expression) : Tree :=
  match exp with
  | List items => Node (map tree_of items)
  | Int _ | Float _ | Sym _ => Leaf (lispstr exp)
  end.

Definition spaceless (s : string) : bool :=
  forallb (fun c => negb (PyStr.is_space c)) (list_ascii_of_string s).

Definition plain_char (c : ascii) : bool :=
  negb (PyStr.is_space c) && negb (Ascii.eqb c "(") && negb (Ascii.eqb c ")").

Definition plain (s : string) : bool :=
  forallb plain_char (list_ascii_of_string s).

(** A token that the reader takes for a symbol. *)
Definition symbol_token (s : string) : bool :=
  negb (String.eqb s "") && plain s
  && match PyStr.int s with None => true | Some _ => false end
  && match float_of_string s with None => true | Some _ => false end.

(** The interpreter's default limit on the digits of an [int] that is
    converted from or to a string; [PyStr.int] and [PyStr.str_int] model
    the conversions below it. *)
Definition int_max_str_digits : nat := 4300.

(** Simple expressions: integers and symbols, and lists of them. *)
Fixpoint simple (exp : Expression) : bool :=
  match exp with
  | Int x => (String.length (PyStr.str_int x) <=? int_max_str_digits)%nat
  | Float _ => false
  | Sym s => symbol_token s
  | List items => forallb simple items
  end.

(** A simple canonical source text is the rendering of a simple
    expression. *)
Definition canonical (source : string) : Prop :=
  exists exp, simple exp = true /\ source = lispstr exp.

(** [normalize] collapses every run of white space to one space and drops
    it at both ends. *)
Definition normalize (source : string) : string :=
  PyStr.join " " (PyStr.split source).

(** A text that [normalize] leaves as it is (and that is not blank). *)
Definition collapsed (source : string) : Prop :=
  PyStr.split source <> [] /\ normalize source = source.

(** What [tokenize] can produce: a parenthesis, or a non-empty run of
    characters that are neither white space nor parentheses. *)
Definition token_ok (token : string) : Prop :=
  token <> "" /\ (token = "(" \/ token = ")" \/ plain token = true).

(** Every dictionary that the mapping refers to is one of the first [n]
    dictionaries of the store. *)
Fixpoint refs_below (n : nat) (m : Mapping) : bool :=
  match m with
  | Dict ref => (ref <? n)%nat
  | Chain maps => forallb (refs_below n) maps
  end.

(** The dictionary [d] after the [pairs] are stored in it one by one. *)
Definition bind_all (d : gmap string Value) (pairs : list (string * Value))
  : gmap string Value :=
  foldl (fun d p => <[p.1 := p.2]> d) d pairs.

(** The shapes of the special forms, as the table of the evaluator's
    rules lists them. *)
Definition special_form_shape (items : list Expression) : bool :=
  match items with
  | [] => false
  | head :: rest =>
      (is_symbol "quote" head && (length rest =? 1)%nat)
      || (is_symbol "if" head && (length rest =? 3)%nat)
      || (is_symbol "define" head
          && match rest with
             | [Sym _; _] => true
             | List (Sym _ :: _) :: _ :: _ => true
             | _ => false
             end)
      || (is_symbol "set!" head
          && match rest with [Sym _; _] => true | _ => false end)
      || (is_symbol "lambda" head
          && match rest with List _ :: _ :: _ => true | _ => false end)
      || is_symbol "cond" head || is_symbol "or" head
      || is_symbol "and" head || is_symbol "begin" head
  end.

End Vocabulary.

Section VocabularyOfEvaluation.
Context `{Builtins}.

(** [passed_over fuel env clauses st st']: [cond_form] goes past every
    clause of [clauses], taking the store from [st] to [st']: a clause that
    is no non-empty list is skipped, and so is a clause whose test, which
    is not [else], evaluates to a falsy value. *)
Inductive passed_over (fuel : nat) (env : Environment)
  : list Expression -> Store -> Store -> Prop :=
| passed_nil st : passed_over fuel env [] st st
| passed_atom clause clauses st st' :
    match clause with List (_ :: _) => False | _ => True end ->
    passed_over fuel env clauses st st' ->
    passed_over fuel env (clause :: clauses) st st'
| passed_falsy test body clauses st st1 st' t :
    is_symbol "else" test = false ->
    evaluate fuel test env st = Return (t, st1) ->
    truthy t = false ->
    passed_over fuel env clauses st1 st' ->
    passed_over fuel env (List (test :: body) :: clauses) st st'.


End VocabularyOfEvaluation.

(** * Properties *)

(** ** Outcomes *)

Lemma bind_Return {A B : Type} (a : A) (f : A -> Outcome B) :
  (Return a ≫= f) = f a.
Proof. reflexivity. Qed.

Lemma bind_pair_Return {A B : Type} (m : Outcome (A * B)) :
  ('(a, b) ← m; Return (a, b)) = m.
Proof. by destruct m as [[a b]| |]. Qed.

(** ** The evaluator: dispatch *)

Section DispatchFacts.
Context `{Builtins}.

Lemma evaluate_S fuel exp env st :
  evaluate (S fuel) exp env st =
  match match_exp exp with
  | CaseInt x => Return (VInt x, st)
  | CaseFloat x => Return (VFloat x, st)
  | CaseSymbol var =>
      match getitem st var (Chain env) with
      | Some v => Return (v, st)
      | None => Raise (UndefinedSymbol var)
      end
  | CaseQuote exp' => Return (value_of exp', st)
  | CaseIf test consequence alternative =>
      '(t, st') ← evaluate fuel test env st;
      if truthy t then evaluate fuel consequence env st'
      else evaluate fuel alternative env st'
  | CaseDefine var value_exp =>
      '(v, st1) ← evaluate fuel value_exp env st;
      st2 ← setitem (Chain env) var v st1;
      Return (VNone, st2)
  | CaseSet var value_exp =>
      '(v, st1) ← evaluate fuel value_exp env st;
      st2 ← change env var v st1;
      Return (VNone, st2)
  | CaseDefineProcedure name parms body =>
      st' ← setitem (Chain env) name (VProcedure parms body env) st;
      Return (VNone, st')
  | CaseLambda parms body => Return (VProcedure parms body env, st)
  | CaseCond clauses => cond_form (evaluate fuel) clauses env st
  | CaseOr expressions => or_form (evaluate fuel) expressions env st
  | CaseAnd expressions => and_form (evaluate fuel) expressions env st
  | CaseBegin expressions =>
      st' ← eval_each (evaluate fuel) (removelast expressions) env st;
      match last expressions with
      | None => Raise IndexError
      | Some exp' => evaluate fuel exp' env st'
      end
  | CaseApply op args =>
      '(proc, st1) ← evaluate fuel op env st;
      '(values, st2) ← eval_args (evaluate fuel) args env st1;
      match TCO_ENABLED, proc with
      | true, VProcedure parms body definition_env =>
          '(env', st3) ← application_env parms definition_env values st2;
          evaluate fuel (List (Sym "begin" :: body)) env' st3
      | _, _ =>
          match invoke fuel proc values st2 with
          | Raise TypeError => Raise (EvaluatorException (lispstr exp))
          | r => r
          end
      end
  | CaseDefault => Raise (InvalidSyntax (lispstr exp))
  end.
Proof. reflexivity. Qed.

Lemma match_exp_begin expressions :
  match_exp (List (Sym "begin" :: expressions)) = CaseBegin expressions.
Proof. reflexivity. Qed.

Lemma match_exp_cond clauses :
  match_exp (List (Sym "cond" :: clauses)) = CaseCond clauses.
Proof. reflexivity. Qed.

Lemma match_exp_or expressions :
  match_exp (List (Sym "or" :: expressions)) = CaseOr expressions.
Proof. reflexivity. Qed.

Lemma match_exp_and expressions :
  match_exp (List (Sym "and" :: expressions)) = CaseAnd expressions.
Proof. reflexivity. Qed.

Lemma match_exp_set var value_exp :
  match_exp (List [Sym "set!"; Sym var; value_exp]) = CaseSet var value_exp.
Proof. reflexivity. Qed.

Lemma in_KEYWORDS_inv op :
  in_KEYWORDS op = true -> exists k, op = Sym k /\ k ∈ KEYWORDS.
Proof.
  unfold in_KEYWORDS. intros Hk. apply existsb_exists in Hk as (k & Hin & Hs).
  destruct op as [| |s|]; try discriminate. simpl in Hs.
  apply String.eqb_eq in Hs. subst s. exists k. split; [done|].
  by apply list_elem_of_In.
Qed.

(** C10: evaluating [(begin)] selects the [begin] case, not the default
    case; it raises the host's indexing error when it takes the last
    element of the empty list of expressions.  So [evaluate] returns no
    value on this input, whatever the fuel, and does not raise
    [InvalidSyntax]. *)
Theorem empty_begin_raises_IndexError fuel env st :
  match_exp (List [Sym "begin"]) = CaseBegin []
  /\ match_exp (List [Sym "begin"]) <> CaseDefault
  /\ evaluate (S fuel) (List [Sym "begin"]) env st = Raise IndexError
  /\ (forall source,
        evaluate (S fuel) (List [Sym "begin"]) env st
        <> Raise (InvalidSyntax source))
  /\ (forall n r, evaluate n (List [Sym "begin"]) env st <> Return r).
Proof.
  split; [reflexivity|]. split; [discriminate|]. split; [reflexivity|].
  split; [discriminate|]. intros [|n] r; discriminate.
Qed.

Ltac split_scrutinee :=
  match goal with
  | |- context [match ?x with _ => _ end] => is_var x; destruct x
  | H : context [match ?x with _ => _ end] |- _ => is_var x; destruct x
  end.

Lemma keyword_default k rest :
  k ∈ KEYWORDS ->
  special_form_shape (Sym k :: rest) = false ->
  match_exp (List (Sym k :: rest)) = CaseDefault.
Proof.
  intros Hk Hshape.
  repeat (apply elem_of_cons in Hk as [->|Hk]);
    [..|by apply elem_of_nil in Hk];
    cbn in Hshape |- *;
    repeat (first [discriminate | reflexivity | split_scrutinee; cbn in Hshape |- *]).
Qed.

Lemma keyword_not_applied head rest op args :
  in_KEYWORDS head = true ->
  match_exp (List (head :: rest)) <> CaseApply op args.
Proof.
  intros Hk. unfold match_exp.
  destruct (case_quote _); [discriminate|].
  destruct (case_if _) as [[[? ?] ?]|]; [discriminate|].
  destruct (case_named "define" _) as [[? ?]|]; [discriminate|].
  destruct (case_named "set!" _) as [[? ?]|]; [discriminate|].
  destruct (case_define_procedure _) as [[[? ?] ?]|]; [discriminate|].
  destruct (case_lambda _) as [[? ?]|]; [discriminate|].
  destruct (case_rest "cond" _); [discriminate|].
  destruct (case_rest "or" _); [discriminate|].
  destruct (case_rest "and" _); [discriminate|].
  destruct (case_rest "begin" _); [discriminate|].
  unfold case_apply. by rewrite Hk.
Qed.

(** C6: a reserved keyword is never treated as a callable.  A list whose
    head is one of [quote], [if], [define], [lambda], [set!], [cond], [or],
    [and], [begin] never selects the application case; when its shape is
    that of no special form, evaluating it raises [InvalidSyntax] with the
    rendering of the form.  So do [(if 1 2)], a [lambda] and a sugared
    [define] without a body, and the empty list. *)
Theorem keyword_form_is_never_applied fuel env st :
  (forall head rest,
      in_KEYWORDS head = true ->
      (forall op args, match_exp (List (head :: rest)) <> CaseApply op args)
      /\ (special_form_shape (head :: rest) = false ->
          evaluate (S fuel) (List (head :: rest)) env st
          = Raise (InvalidSyntax (lispstr (List (head :: rest))))))
  /\ evaluate (S fuel) (List [Sym "if"; Int 1; Int 2]) env st
     = Raise (InvalidSyntax "(if 1 2)")
  /\ (forall parms,
        evaluate (S fuel) (List [Sym "lambda"; List parms]) env st
        = Raise (InvalidSyntax (lispstr (List [Sym "lambda"; List parms]))))
  /\ (forall name parms,
        evaluate (S fuel) (List [Sym "define"; List (Sym name :: parms)]) env st
        = Raise (InvalidSyntax
                   (lispstr (List [Sym "define"; List (Sym name :: parms)]))))
  /\ evaluate (S fuel) (List []) env st = Raise (InvalidSyntax "()").
Proof.
  split; [|by repeat split].
  intros head rest Hk. split.
  - intros op args. by apply keyword_not_applied.
  - intros Hshape. apply in_KEYWORDS_inv in Hk as (k & -> & Hk).
    rewrite evaluate_S. by rewrite keyword_default.
Qed.

End DispatchFacts.

(** ** The evaluator: procedures *)

Section ProcedureFacts.
Context `{Builtins}.

(** [begin] over a non-empty body and the loop of [Procedure.__call__]
    run the same evaluations. *)
Lemma begin_is_eval_body (eval : Expression -> Environment -> Store ->
                                 Outcome (Value * Store))
  body env st result :
  body <> [] ->
  (st' ← eval_each eval (removelast body) env st;
   match last body with
   | None => Raise IndexError
   | Some exp => eval exp env st'
   end) = eval_body eval result body env st.
Proof.
  revert st result. induction body as [|exp body IH]; intros st result Hne;
    [done|].
  destruct body as [|exp' body].
  - simpl. by destruct (eval exp env st) as [[v st']| |].
  - change (removelast (exp :: exp' :: body))
      with (exp :: removelast (exp' :: body)).
    change (last (exp :: exp' :: body)) with (last (exp' :: body)).
    cbn [eval_each eval_body].
    destruct (eval exp env st) as [[v st']| |]; [|done..].
    exact (IH st' (Some v) ltac:(done)).
Qed.

Lemma trampoline_state fuel parms body definition_env values st :
  body <> [] ->
  ('(env', st') ← application_env parms definition_env values st;
   evaluate (S fuel) (List (Sym "begin" :: body)) env' st')
  = Procedure_call (evaluate fuel) parms body definition_env values st.
Proof.
  intros Hbody. unfold Procedure_call.
  destruct (application_env parms definition_env values st)
    as [[env' st']| |]; [|done..].
  change (evaluate (S fuel) (List (Sym "begin" :: body)) env' st'
          = eval_body (evaluate fuel) None body env' st').
  rewrite evaluate_S, match_exp_begin.
  exact (begin_is_eval_body (evaluate fuel) body env' st' None Hbody).
Qed.

(** C2: applying a user-defined procedure through the trampoline (the
    loop state becomes [(begin . body)] and [application_env(values)], and
    the loop goes on) gives the outcome of [Procedure.__call__], which
    evaluates the body expressions in order in [application_env(values)]
    and returns the last result.  This holds for the rewritten loop state
    itself and for the evaluation of an application form whose operator
    evaluates to the procedure. *)
Theorem trampoline_agrees_with_call fuel parms body definition_env :
  body <> [] ->
  (forall values st,
      ('(env', st') ← application_env parms definition_env values st;
       evaluate (S fuel) (List (Sym "begin" :: body)) env' st')
      = Procedure_call (evaluate fuel) parms body definition_env values st)
  /\ (forall op args env st st1 values st2,
        match_exp (List (op :: args)) = CaseApply op args ->
        evaluate (S fuel) op env st
        = Return (VProcedure parms body definition_env, st1) ->
        eval_args (evaluate (S fuel)) args env st1 = Return (values, st2) ->
        evaluate (S (S fuel)) (List (op :: args)) env st
        = invoke (S fuel) (VProcedure parms body definition_env) values st2).
Proof.
  intros Hbody. split.
  - intros values st. by apply trampoline_state.
  - intros op args env st st1 values st2 Hcase Hproc Hargs.
    rewrite evaluate_S, Hcase, Hproc, bind_Return, Hargs, bind_Return.
    unfold TCO_ENABLED.
    by apply trampoline_state.
Qed.

End ProcedureFacts.

(** ** Application environments *)

Section ApplicationEnvFacts.
Context `{Host}.

Lemma zip_dict_take parms args d :
  let n := (length parms `min` length args)%nat in
  zip_dict parms args d = zip_dict (take n parms) (take n args) d.
Proof.
  revert args d. induction parms as [|p parms IH]; intros [|a args] d; try done.
  simpl. destruct p; try done; apply IH.
Qed.

Lemma zip_dict_symbols names args d :
  zip_dict (Sym <$> names) args d = Return (bind_all d (zip names args)).
Proof.
  revert args d. induction names as [|k names IH]; intros [|a args] d; try done.
  simpl. apply IH.
Qed.

Lemma bind_all_notin name names args d :
  name ∉ names -> bind_all d (zip names args) !! name = d !! name.
Proof.
  revert args d. induction names as [|k names IH]; intros [|a args] d Hnotin;
    try done.
  apply not_elem_of_cons in Hnotin as [Hne Hnotin].
  simpl. rewrite IH by done. by rewrite lookup_insert_ne.
Qed.

Lemma bind_all_positional names args d i name :
  NoDup names -> names !! i = Some name ->
  bind_all d (zip names args) !! name
  = match args !! i with Some v => Some v | None => d !! name end.
Proof.
  revert args d i. induction names as [|k names IH]; intros args d i Hnodup Hi;
    [done|].
  apply NoDup_cons in Hnodup as [Hk Hnodup].
  destruct args as [|a args]; [by destruct i|].
  destruct i as [|i]; simpl in Hi |- *.
  - injection Hi as ->. rewrite bind_all_notin by done.
    by rewrite lookup_insert_eq.
  - rewrite (IH args _ i) by done.
    destruct (args !! i); [done|].
    apply lookup_insert_ne. intros ->. apply Hk.
    by eapply list_elem_of_lookup_2.
Qed.

Lemma bind_all_dom names args d key v :
  bind_all d (zip names args) !! key = Some v ->
  key ∈ take (length args) names \/ d !! key = Some v.
Proof.
  revert args d. induction names as [|k names IH]; intros [|a args] d Hv;
    try (by right).
  simpl in Hv. apply IH in Hv as [Hin|Hv].
  - left. simpl. by apply list_elem_of_further.
  - destruct (decide (k = key)) as [->|Hne].
    + left. simpl. apply list_elem_of_here.
    + right. by rewrite lookup_insert_ne in Hv.
Qed.

(** C3: [application_env] pairs parameters with arguments by position and
    stops at the shorter of the two lists: the call on lists of different
    lengths is the call on both lists cut to the shorter length.  With
    symbols as parameters it always returns an environment (no error for
    the arity): the new dictionary binds only parameters that have an
    argument, and the parameter at position [i] to the argument at
    position [i]. *)
Theorem application_env_truncates parms definition_env args st :
  (let n := (length parms `min` length args)%nat in
   application_env parms definition_env args st
   = application_env (take n parms) definition_env (take n args) st)
  /\ (forall names,
        parms = Sym <$> names ->
        exists local_env,
          application_env parms definition_env args st
          = Return ([Dict (length st); Chain definition_env], st ++ [local_env])
          /\ (forall key v,
                local_env !! key = Some v -> key ∈ take (length args) names)
          /\ (NoDup names ->
              forall i name,
                names !! i = Some name -> local_env !! name = args !! i)).
Proof.
  split.
  - unfold application_env. simpl. by rewrite zip_dict_take.
  - intros names ->. exists (bind_all ∅ (zip names args)).
    unfold application_env. rewrite zip_dict_symbols. split; [done|]. split.
    + intros key v Hv. by apply bind_all_dom in Hv as [?|?].
    + intros Hnodup i name Hi. rewrite (bind_all_positional _ _ _ i) by done.
      by destruct (args !! i).
Qed.

End ApplicationEnvFacts.


(** ** Special forms: [or], [and] and [cond] *)

Section FormFacts.
Context `{Builtins}.
Variable eval : Expression -> Environment -> Store -> Outcome (Value * Store).

Lemma eval_args_cons arg args env st vs st' :
  eval_args eval (arg :: args) env st = Return (vs, st') ->
  exists v vs' st1,
    vs = v :: vs' /\ eval arg env st = Return (v, st1)
    /\ eval_args eval args env st1 = Return (vs', st').
Proof.
  simpl. destruct (eval arg env st) as [[v st1]| |]; simpl; [|discriminate..].
  destruct (eval_args eval args env st1) as [[vs' st2]| |] eqn:Hargs; simpl;
    [|discriminate..].
  intros [= <- <-]. by exists v, vs', st1.
Qed.

Lemma or_loop_falsy pre rest env st vs st1 value :
  eval_args eval pre env st = Return (vs, st1) ->
  Forall (fun v => truthy v = false) vs ->
  or_loop eval value (pre ++ rest) env st
  = or_loop eval (default value (last vs)) rest env st1.
Proof.
  revert st vs value. induction pre as [|exp pre IH]; intros st vs value Hvs Hfalsy.
  - by injection Hvs as <- <-.
  - apply eval_args_cons in Hvs as (v & vs' & st2 & -> & Hv & Hvs').
    apply Forall_cons in Hfalsy as [Hv_falsy Hfalsy].
    simpl. rewrite Hv. simpl. rewrite Hv_falsy.
    rewrite (IH _ _ v Hvs' Hfalsy), last_cons. by destruct (last vs').
Qed.

Lemma and_loop_truthy pre rest env st vs st1 value :
  eval_args eval pre env st = Return (vs, st1) ->
  Forall (fun v => truthy v = true) vs ->
  and_loop eval value (pre ++ rest) env st
  = and_loop eval (default value (last vs)) rest env st1.
Proof.
  revert st vs value. induction pre as [|exp pre IH]; intros st vs value Hvs Htruthy.
  - by injection Hvs as <- <-.
  - apply eval_args_cons in Hvs as (v & vs' & st2 & -> & Hv & Hvs').
    apply Forall_cons in Htruthy as [Hv_truthy Htruthy].
    simpl. rewrite Hv. simpl. rewrite Hv_truthy. simpl.
    rewrite (IH _ _ v Hvs' Htruthy), last_cons. by destruct (last vs').
Qed.

Lemma eval_body_last body env st vs st' result :
  eval_args eval body env st = Return (vs, st') ->
  eval_body eval result body env st
  = match last vs, result with
    | Some v, _ | None, Some v => Return (v, st')
    | None, None => Raise UnboundLocalError
    end.
Proof.
  revert st vs result. induction body as [|exp body IH]; intros st vs result Hvs.
  - injection Hvs as <- <-. by destruct result.
  - apply eval_args_cons in Hvs as (v & vs' & st2 & -> & Hv & Hvs').
    simpl. rewrite Hv. simpl. rewrite (IH _ _ (Some v) Hvs'), last_cons.
    by destruct (last vs').
Qed.

End FormFacts.

Section CondFacts.
Context `{Builtins}.

Lemma cond_form_passed_over fuel env pre rest st st1 :
  passed_over fuel env pre st st1 ->
  cond_form (evaluate fuel) (pre ++ rest) env st
  = cond_form (evaluate fuel) rest env st1.
Proof.
  induction 1 as [|clause clauses st st' Hshape _ IH
                  |test body clauses st st1 st' t Htest Ht Hfalsy _ IH]; [done|..].
  - simpl. by destruct clause as [| | |[|]].
  - simpl. by rewrite Htest, Ht, bind_Return, Hfalsy.
Qed.

(** C5: [(or exp...)] evaluates its expressions from left to right and
    returns the first truthy value at once: the outcome is the value and the
    store reached at that expression, whatever expressions follow it.  When
    all values are falsy it returns the last one, and [False] for no
    expression at all.  [(and exp...)] does the same with the first falsy
    value, the last value when all are truthy, and [True] for no
    expression. *)
Theorem or_and_short_circuit fuel env st :
  (forall pre exp post vs st1 v st2,
      eval_args (evaluate fuel) pre env st = Return (vs, st1) ->
      Forall (fun v => truthy v = false) vs ->
      evaluate fuel exp env st1 = Return (v, st2) ->
      truthy v = true ->
      evaluate (S fuel) (List (Sym "or" :: pre ++ exp :: post)) env st
      = Return (v, st2))
  /\ (forall expressions vs st1,
        eval_args (evaluate fuel) expressions env st = Return (vs, st1) ->
        Forall (fun v => truthy v = false) vs ->
        evaluate (S fuel) (List (Sym "or" :: expressions)) env st
        = Return (default (VBool false) (last vs), st1))
  /\ evaluate (S fuel) (List [Sym "or"]) env st = Return (VBool false, st)
  /\ (forall pre exp post vs st1 v st2,
        eval_args (evaluate fuel) pre env st = Return (vs, st1) ->
        Forall (fun v => truthy v = true) vs ->
        evaluate fuel exp env st1 = Return (v, st2) ->
        truthy v = false ->
        evaluate (S fuel) (List (Sym "and" :: pre ++ exp :: post)) env st
        = Return (v, st2))
  /\ (forall expressions vs st1,
        eval_args (evaluate fuel) expressions env st = Return (vs, st1) ->
        Forall (fun v => truthy v = true) vs ->
        evaluate (S fuel) (List (Sym "and" :: expressions)) env st
        = Return (default (VBool true) (last vs), st1))
  /\ evaluate (S fuel) (List [Sym "and"]) env st = Return (VBool true, st).
Proof.
  repeat split; try reflexivity.
  - intros pre exp post vs st1 v st2 Hvs Hfalsy Hv Htruthy.
    rewrite evaluate_S, match_exp_or. unfold or_form.
    rewrite (or_loop_falsy _ _ _ _ _ _ _ _ Hvs Hfalsy).
    simpl. by rewrite Hv, bind_Return, Htruthy.
  - intros expressions vs st1 Hvs Hfalsy.
    rewrite evaluate_S, match_exp_or. unfold or_form.
    rewrite <- (app_nil_r expressions).
    by rewrite (or_loop_falsy _ _ _ _ _ _ _ _ Hvs Hfalsy).
  - intros pre exp post vs st1 v st2 Hvs Htruthy Hv Hfalsy.
    rewrite evaluate_S, match_exp_and. unfold and_form.
    rewrite (and_loop_truthy _ _ _ _ _ _ _ _ Hvs Htruthy).
    simpl. by rewrite Hv, bind_Return, Hfalsy.
  - intros expressions vs st1 Hvs Htruthy.
    rewrite evaluate_S, match_exp_and. unfold and_form.
    rewrite <- (app_nil_r expressions).
    by rewrite (and_loop_truthy _ _ _ _ _ _ _ _ Hvs Htruthy).
Qed.

(** C8: [(cond clause...)] examines its clauses in order.  When it goes
    past all of them (no test is truthy and there is no [else]) it returns
    no value, [None], which is not [False].  Otherwise the first clause that
    matches, [(else body...)] or [(test body...)] with a truthy test, has its
    body evaluated in order and the value of the last body expression is
    returned, whatever clauses follow. *)
Theorem cond_first_matching_clause fuel env st :
  (forall clauses st',
      passed_over fuel env clauses st st' ->
      evaluate (S fuel) (List (Sym "cond" :: clauses)) env st
      = Return (VNone, st'))
  /\ VNone <> VBool false
  /\ (forall pre test body post st1 vs st2 v,
        passed_over fuel env pre st st1 ->
        is_symbol "else" test = true ->
        eval_args (evaluate fuel) body env st1 = Return (vs, st2) ->
        last vs = Some v ->
        evaluate (S fuel)
          (List (Sym "cond" :: pre ++ List (test :: body) :: post)) env st
        = Return (v, st2))
  /\ (forall pre test body post st1 t st2 vs st3 v,
        passed_over fuel env pre st st1 ->
        is_symbol "else" test = false ->
        evaluate fuel test env st1 = Return (t, st2) ->
        truthy t = true ->
        eval_args (evaluate fuel) body env st2 = Return (vs, st3) ->
        last vs = Some v ->
        evaluate (S fuel)
          (List (Sym "cond" :: pre ++ List (test :: body) :: post)) env st
        = Return (v, st3)).
Proof.
  split; [|split; [done|split]].
  - intros clauses st' Hpassed.
    rewrite evaluate_S, match_exp_cond, <- (app_nil_r clauses).
    by rewrite (cond_form_passed_over _ _ _ _ _ _ Hpassed).
  - intros pre test body post st1 vs st2 v Hpassed Helse Hvs Hlast.
    rewrite evaluate_S, match_exp_cond.
    rewrite (cond_form_passed_over _ _ _ _ _ _ Hpassed).
    simpl. rewrite Helse, (eval_body_last _ _ _ _ _ _ None Hvs). by rewrite Hlast.
  - intros pre test body post st1 t st2 vs st3 v Hpassed Helse Ht Htruthy Hvs Hlast.
    rewrite evaluate_S, match_exp_cond.
    rewrite (cond_form_passed_over _ _ _ _ _ _ Hpassed).
    simpl. rewrite Helse, Ht, bind_Return, Htruthy.
    rewrite (eval_body_last _ _ _ _ _ _ None Hvs). by rewrite Hlast.
Qed.

End CondFacts.


(** ** Assignment and [Environment.change] *)

Section ChangeFacts.
Context `{Builtins}.

Lemma change_unbound env key value st :
  forallb (fun map => negb (contains st key map)) env = true ->
  change env key value st = Raise (KeyError key).
Proof.
  unfold change. induction env as [|map env IH]; [done|].
  simpl. intros [Hmap Henv]%andb_prop. apply negb_true_iff in Hmap.
  rewrite Hmap. by apply IH.
Qed.

(** [set!] on a name that no map of the environment holds: the [KeyError] of
    [Environment.change] comes out of [evaluate] as it is. *)
Lemma set_unbound_raises_KeyError fuel env st var value_exp v st1 :
  evaluate fuel value_exp env st = Return (v, st1) ->
  forallb (fun map => negb (contains st1 var map)) env = true ->
  evaluate (S fuel) (List [Sym "set!"; Sym var; value_exp]) env st
  = Raise (KeyError var).
Proof.
  intros Hv Hunbound.
  rewrite evaluate_S, match_exp_set, Hv, bind_Return.
  by rewrite change_unbound.
Qed.

(** [change] in the environment of a procedure applied inside the
    application of another one: a name held only beyond the first map of the
    chained environment is stored in that first map, [local1], where it was
    not bound. *)
Lemma change_stores_in_first_map_of_chain local2 local1 outer key value st :
  dict_at st local2 !! key = None ->
  dict_at st local1 !! key = None ->
  existsb (contains st key) outer = true ->
  change [Dict local2; Chain (Dict local1 :: outer)] key value st
  = Return (dict_setitem local1 key value st).
Proof.
  intros Hlocal2 Hlocal1 Houter. unfold change. simpl.
  rewrite Hlocal2, Hlocal1, Houter.
  rewrite bool_decide_eq_false_2 by (by intros [? ?]).
  reflexivity.
Qed.

(** [change] where the first map that holds the name is a dictionary. *)
Lemma change_in_dict front ref rest key value st :
  forallb (fun map => negb (contains st key map)) front = true ->
  is_Some (dict_at st ref !! key) ->
  change (front ++ Dict ref :: rest) key value st
  = Return (dict_setitem ref key value st).
Proof.
  unfold change. induction front as [|map front IH]; simpl.
  - intros _ Hbound. by rewrite bool_decide_eq_true_2.
  - intros [Hmap Hfront]%andb_prop Hbound. apply negb_true_iff in Hmap.
    rewrite Hmap. by apply IH.
Qed.

(** A procedure is created with the environment of its creation. *)
Lemma lambda_captures_env fuel env st parms body :
  body <> [] ->
  evaluate (S fuel) (List (Sym "lambda" :: List parms :: body)) env st
  = Return (VProcedure parms body env, st).
Proof. by destruct body. Qed.

Lemma define_procedure_captures_env fuel env st name parms body :
  body <> [] ->
  evaluate (S fuel) (List (Sym "define" :: List (Sym name :: parms) :: body))
    env st
  = (st' ← setitem (Chain env) name (VProcedure parms body env) st;
     Return (VNone, st')).
Proof. by destruct body. Qed.

Lemma application_env_fresh parms definition_env args st env' st' :
  application_env parms definition_env args st = Return (env', st') ->
  env' = [Dict (length st); Chain definition_env]
  /\ st !! length st = None
  /\ exists local_env, st' = st ++ [local_env].
Proof.
  unfold application_env.
  destruct (zip_dict parms args ∅) as [local_env| |]; simpl; [|discriminate..].
  intros [= <- <-]. split; [done|]. split; [|by exists local_env].
  by apply lookup_ge_None_2.
Qed.

End ChangeFacts.


(** ** Host strings: [split], [replace], [join], [int] and [str] *)

Lemma string_app_cons (x : ascii) (a b : string) :
  String x a +:+ b = String x (a +:+ b).
Proof. reflexivity. Qed.

Lemma string_app_nil_l (a : string) : "" +:+ a = a.
Proof. reflexivity. Qed.

Lemma string_app_assoc (a b c : string) : (a +:+ b) +:+ c = a +:+ (b +:+ c).
Proof.
  induction a as [|x a IH]; [done|]. by rewrite !string_app_cons, IH.
Qed.

Lemma string_app_nil_r (a : string) : a +:+ "" = a.
Proof. induction a as [|x a IH]; [done|]. by rewrite string_app_cons, IH. Qed.

Lemma string_app_eq_nil (a b : string) : a +:+ b = "" -> a = "" /\ b = "".
Proof. by destruct a. Qed.

Lemma list_ascii_app (a b : string) :
  list_ascii_of_string (a +:+ b)
  = list_ascii_of_string a ++ list_ascii_of_string b.
Proof.
  induction a as [|x a IH]; [done|]. rewrite string_app_cons. simpl.
  by rewrite IH.
Qed.

Lemma split_from_app_space cur a b :
  PyStr.split_from cur (a +:+ String " " b)
  = PyStr.split_from cur a ++ PyStr.split b.
Proof.
  revert cur. induction a as [|c a IH]; intros cur; [done|].
  rewrite string_app_cons. simpl. destruct (PyStr.is_space c).
  - by rewrite IH, app_assoc.
  - apply IH.
Qed.

Lemma split_app_space a b :
  PyStr.split (a +:+ String " " b) = PyStr.split a ++ PyStr.split b.
Proof. apply split_from_app_space. Qed.

Lemma split_from_word cur w :
  forallb (fun c => negb (PyStr.is_space c)) (list_ascii_of_string w) = true ->
  PyStr.split_from cur w = PyStr.flush (cur +:+ w).
Proof.
  revert cur. induction w as [|c w IH]; intros cur Hw.
  - by rewrite string_app_nil_r.
  - simpl in Hw. apply andb_prop in Hw as [Hc Hw].
    apply negb_true_iff in Hc. simpl. rewrite Hc, IH by done.
    by rewrite string_app_assoc, string_app_cons, string_app_nil_l.
Qed.

Lemma split_word w :
  w <> "" ->
  forallb (fun c => negb (PyStr.is_space c)) (list_ascii_of_string w) = true ->
  PyStr.split w = [w].
Proof.
  intros Hne Hw. unfold PyStr.split. rewrite split_from_word by done.
  by destruct w.
Qed.

Lemma replace_app old new a b :
  PyStr.replace old new (a +:+ b)
  = PyStr.replace old new a +:+ PyStr.replace old new b.
Proof.
  induction a as [|c a IH]; [done|]. rewrite string_app_cons. simpl.
  rewrite IH. destruct (Ascii.eqb c old); [|done]. by rewrite string_app_assoc.
Qed.

Lemma replace_other old new c s :
  Ascii.eqb c old = false ->
  PyStr.replace old new (String c s) = String c (PyStr.replace old new s).
Proof. intros Hc. simpl. by rewrite Hc. Qed.

Lemma replace_same old new s :
  PyStr.replace old new (String old s) = new +:+ PyStr.replace old new s.
Proof. simpl. by rewrite Ascii.eqb_refl. Qed.

Lemma replace_absent old new w :
  forallb (fun c => negb (Ascii.eqb c old)) (list_ascii_of_string w) = true ->
  PyStr.replace old new w = w.
Proof.
  induction w as [|c w IH]; [done|]. simpl.
  intros [Hc Hw]%andb_prop. apply negb_true_iff in Hc. by rewrite Hc, IH.
Qed.

Lemma join_cons sep x y l :
  PyStr.join sep (x :: y :: l) = x +:+ sep +:+ PyStr.join sep (y :: l).
Proof. reflexivity. Qed.

Lemma join_app sep l1 l2 :
  l1 <> [] -> l2 <> [] ->
  PyStr.join sep (l1 ++ l2) = PyStr.join sep l1 +:+ sep +:+ PyStr.join sep l2.
Proof.
  intros Hl1 Hl2. induction l1 as [|x l1 IH]; [done|].
  destruct l1 as [|y l1].
  - by destruct l2.
  - change ((x :: y :: l1) ++ l2) with (x :: y :: (l1 ++ l2)).
    rewrite !join_cons. change (y :: l1 ++ l2) with ((y :: l1) ++ l2).
    rewrite IH by done. by rewrite !string_app_assoc.
Qed.

(** *** [int(str(n)) == n] *)

Lemma digits_string_of_uint d :
  d <> Decimal.Nil -> PyStr.digits (NilEmpty.string_of_uint d) = Some d.
Proof.
  induction d as [|d IH|d IH|d IH|d IH|d IH|d IH|d IH|d IH|d IH|d IH];
    intros Hd; [done|..];
    (destruct d; [done|..];
     (specialize (IH ltac:(discriminate));
      cbn [NilEmpty.string_of_uint PyStr.digits PyStr.digit] in IH |- *;
      by rewrite IH)).
Qed.

Lemma int_str_int z : PyStr.int (PyStr.str_int z) = Some z.
Proof.
  unfold PyStr.str_int. destruct z as [|p|p]; [done|..]; simpl;
    pose proof (Unsigned.to_uint_nonnil p) as Hne;
    pose proof (Unsigned.of_to p) as Hof;
    unfold NilZero.string_of_uint;
    pose proof (digits_string_of_uint _ Hne) as Hd.
  - destruct (Pos.to_uint p) eqn:E; [done|..];
      unfold PyStr.int;
      cbn [NilEmpty.string_of_uint] in Hd |- *; rewrite Hd; simpl;
      unfold Z.of_uint; by rewrite Hof.
  - destruct (Pos.to_uint p) eqn:E; [done|..];
      unfold PyStr.int; rewrite Hd; simpl;
      unfold Z.of_uint; by rewrite Hof.
Qed.

Lemma string_of_uint_digits_only d :
  forallb (fun c => match PyStr.digit c with Some _ => true | None => false end)
    (list_ascii_of_string (NilEmpty.string_of_uint d)) = true.
Proof. induction d; simpl; done. Qed.


(** ** The reader *)

Section ReaderFacts.
Context `{Host}.

Lemma Tree_nested_ind (P : Tree -> Prop) :
  (forall token, P (Leaf token)) ->
  (forall children, Forall P children -> P (Node children)) ->
  forall t, P t.
Proof.
  intros Hleaf Hnode. fix IH 1. intros [token|children]; [apply Hleaf|].
  apply Hnode. induction children as [|t children IHchildren];
    constructor; [apply IH|assumption].
Qed.

Lemma Expression_nested_ind (P : Expression -> Prop) :
  (forall x, P (Int x)) -> (forall x, P (Float x)) -> (forall s, P (Sym s)) ->
  (forall items, Forall P items -> P (List items)) ->
  forall exp, P exp.
Proof.
  intros Hint Hfloat Hsym Hlist. fix IH 1.
  intros [x|x|s|items]; [apply Hint|apply Hfloat|apply Hsym|].
  apply Hlist. induction items as [|exp items IHitems];
    constructor; [apply IH|assumption].
Qed.

Lemma flatten_head t :
  leaves_ok t = true ->
  exists token tokens,
    flatten t = token :: tokens /\ String.eqb token ")" = false.
Proof.
  destruct t as [token|children]; simpl.
  - intros Hok. exists token, []. split; [done|].
    unfold is_paren in Hok. apply negb_true_iff, orb_false_elim in Hok.
    by destruct Hok.
  - intros _. by eexists _, _.
Qed.

Lemma read_from_tokens_S fuel token tokens :
  read_from_tokens (S fuel) (token :: tokens)
  = if String.eqb "(" token then read_list fuel [] tokens
    else if String.eqb ")" token then Raise UnexpectedCloseParen
    else Return (parse_atom token, tokens).
Proof. reflexivity. Qed.

Lemma read_list_S fuel exp token tokens :
  read_list (S fuel) exp (token :: tokens)
  = if String.eqb token ")" then Return (List exp, tokens)
    else '(e, rest) ← read_from_tokens fuel (token :: tokens);
         read_list fuel (exp ++ [e]) rest.
Proof. reflexivity. Qed.

(** Reading the tokens of the children of a list, up to its closing
    parenthesis, when each child reads back. *)
Lemma read_list_complete children :
  Forall (fun t => leaves_ok t = true /\
            forall fuel rest,
              (2 * length (flatten t ++ rest) + 1 <= fuel)%nat ->
              read_from_tokens fuel (flatten t ++ rest)
              = Return (expression_of t, rest)) children ->
  forall fuel exp rest,
    (2 * length (concat (map flatten children) ++ ")" :: rest) + 2 <= fuel)%nat ->
    read_list fuel exp (concat (map flatten children) ++ ")" :: rest)
    = Return (List (exp ++ map expression_of children), rest).
Proof.
  induction 1 as [|t children [Hok Ht] _ IH]; intros fuel exp rest Hfuel.
  - destruct fuel as [|fuel]; [simpl in Hfuel; lia|].
    simpl. by rewrite app_nil_r.
  - destruct fuel as [|fuel]; [lia|].
    simpl concat in *. rewrite <- app_assoc in *.
    destruct (flatten_head t Hok) as (token & tokens & Hflat & Hne).
    rewrite length_app in Hfuel.
    assert (1 <= length (flatten t))%nat by (rewrite Hflat; simpl; lia).
    rewrite Hflat at 1. rewrite <- app_comm_cons, read_list_S, Hne.
    rewrite app_comm_cons, <- Hflat.
    rewrite Ht by (rewrite length_app; lia).
    rewrite bind_Return, IH by lia.
    by rewrite <- app_assoc.
Qed.

(** The reader reads back a complete expression and leaves the tokens
    that follow it. *)
Lemma read_from_tokens_complete t :
  leaves_ok t = true ->
  forall fuel rest,
    (2 * length (flatten t ++ rest) + 1 <= fuel)%nat ->
    read_from_tokens fuel (flatten t ++ rest) = Return (expression_of t, rest).
Proof.
  induction t as [token|children IH] using Tree_nested_ind;
    intros Hok fuel rest Hfuel.
  - destruct fuel as [|fuel]; [lia|]. simpl in Hok.
    unfold is_paren in Hok. apply negb_true_iff, orb_false_elim in Hok as [H1 H2].
    rewrite String.eqb_sym in H1. rewrite String.eqb_sym in H2.
    cbn [flatten expression_of app]. by rewrite read_from_tokens_S, H1, H2.
  - destruct fuel as [|fuel]; [lia|].
    simpl in Hok. cbn [flatten expression_of].
    rewrite <- app_comm_cons, read_from_tokens_S. simpl String.eqb.
    rewrite <- app_assoc. simpl app at 2.
    rewrite read_list_complete.
    + done.
    + apply Forall_forall. intros t Ht. split.
      * rewrite forallb_forall in Hok. apply Hok. by apply list_elem_of_In.
      * rewrite Forall_forall in IH. apply IH; [done|].
        rewrite forallb_forall in Hok. apply Hok. by apply list_elem_of_In.
    + simpl in Hfuel. rewrite <- app_assoc in Hfuel. simpl in Hfuel |- *. lia.
Qed.

Lemma read_list_unclosed children :
  Forall (fun t => leaves_ok t = true /\
            forall prefix rest fuel,
              flatten t = prefix ++ rest -> rest <> [] ->
              (2 * length prefix + 1 <= fuel)%nat ->
              read_from_tokens fuel prefix = Raise UnexpectedEndOfSource)
    children ->
  forall prefix rest fuel exp,
    concat (map flatten children) = prefix ++ rest ->
    (2 * length prefix + 2 <= fuel)%nat ->
    read_list fuel exp prefix = Raise UnexpectedEndOfSource.
Proof.
  induction 1 as [|t children [Hok Ht] _ IH]; intros prefix rest fuel exp Heq Hfuel.
  - symmetry in Heq. apply app_eq_nil in Heq as [-> _].
    by destruct fuel as [|fuel]; [lia|].
  - destruct fuel as [|fuel]; [lia|].
    destruct prefix as [|token prefix]; [done|].
    simpl concat in Heq. simpl length in Hfuel.
    destruct (flatten_head t Hok) as (token' & tokens & Hflat & Hne).
    assert (token' = token) as ->.
    { rewrite Hflat in Heq. by injection Heq. }
    rewrite read_list_S, Hne.
    apply app_eq_inv in Heq as [(k & Hk & Hrest)|(k & Hk & Hrest)].
    + destruct k as [|token'' k].
      * rewrite app_nil_r in Hk. rewrite <- Hk.
        rewrite <- (app_nil_r (flatten t)).
        rewrite read_from_tokens_complete; [|done|].
        -- rewrite bind_Return. apply (IH [] rest); [by rewrite Hrest|simpl; lia].
        -- rewrite app_nil_r, Hk. simpl length. lia.
      * rewrite (Ht _ _ _ Hk); [done|done|simpl length; lia].
    + rewrite Hk, read_from_tokens_complete; [|done|].
      * rewrite bind_Return. apply (IH k rest); [done|].
        assert (1 <= length (flatten t))%nat by (rewrite Hflat; simpl; lia).
        assert (length (token :: prefix) = length (flatten t) + length k)%nat
          as Hlen by (by rewrite Hk, length_app).
        simpl length in Hlen. lia.
      * rewrite <- Hk. simpl length. lia.
Qed.

(** The reader runs out of tokens on every proper prefix of the tokens of
    a complete expression. *)
Lemma read_from_tokens_unclosed t :
  leaves_ok t = true ->
  forall prefix rest fuel,
    flatten t = prefix ++ rest -> rest <> [] ->
    (2 * length prefix + 1 <= fuel)%nat ->
    read_from_tokens fuel prefix = Raise UnexpectedEndOfSource.
Proof.
  induction t as [token|children IH] using Tree_nested_ind;
    intros Hok prefix rest fuel Heq Hrest Hfuel;
    (destruct fuel as [|fuel]; [lia|]);
    (destruct prefix as [|token' prefix]; [done|]).
  - simpl in Heq. injection Heq as <- Heq.
    symmetry in Heq. by apply app_eq_nil in Heq as [_ ->].
  - simpl in Heq, Hok. injection Heq as <- Heq.
    rewrite read_from_tokens_S. simpl String.eqb.
    destruct (exists_last Hrest) as (rest' & last_token & ->).
    rewrite app_assoc in Heq. apply app_inj_tail in Heq as [Heq _].
    apply (read_list_unclosed children) with (rest := rest'); [|done|simpl in Hfuel; lia].
    apply Forall_forall. intros t Ht.
    assert (leaves_ok t = true) as Hokt.
    { rewrite forallb_forall in Hok. apply Hok. by apply list_elem_of_In. }
    split; [done|]. rewrite Forall_forall in IH. by apply IH.
Qed.

(** C7: the reader raises [UnexpectedEndOfSource] when the tokens run out
    before an expression is complete: on no token at all, and on every
    proper prefix of the tokens of a complete expression, which covers every
    list that is left open, as in ["(+ 1 2"].  It raises
    [UnexpectedCloseParen] when the token it pops is a closing parenthesis,
    as in [")"]. *)
Theorem reader_errors :
  (forall fuel, read_from_tokens (S fuel) [] = Raise UnexpectedEndOfSource)
  /\ (forall t prefix rest,
        leaves_ok t = true ->
        flatten t = prefix ++ rest -> rest <> [] ->
        read_from_tokens (read_fuel prefix) prefix = Raise UnexpectedEndOfSource)
  /\ (forall source t rest,
        leaves_ok t = true ->
        flatten t = tokenize source ++ rest -> rest <> [] ->
        parse source = Raise UnexpectedEndOfSource)
  /\ parse "(+ 1 2" = Raise UnexpectedEndOfSource
  /\ (forall fuel tokens,
        read_from_tokens (S fuel) (")" :: tokens) = Raise UnexpectedCloseParen)
  /\ parse ")" = Raise UnexpectedCloseParen.
Proof.
  split; [done|]. split; [|split; [|split; [done|split; done]]].
  - intros t prefix rest Hok Heq Hrest.
    apply (read_from_tokens_unclosed t Hok prefix rest); [done|done|].
    unfold read_fuel. lia.
  - intros source t rest Hok Heq Hrest. unfold parse.
    rewrite (read_from_tokens_unclosed t Hok (tokenize source) rest); [done..|].
    unfold read_fuel. lia.
Qed.

End ReaderFacts.


(** ** Round trip through [lispstr] and [parse] *)

Section RoundTripFacts.
Context `{Host}.

Lemma plain_app a b : plain (a +:+ b) = plain a && plain b.
Proof. unfold plain. by rewrite list_ascii_app, forallb_app. Qed.

Lemma spaceless_app a b : spaceless (a +:+ b) = spaceless a && spaceless b.
Proof. unfold spaceless. by rewrite list_ascii_app, forallb_app. Qed.

Lemma plain_spaceless w : plain w = true -> spaceless w = true.
Proof.
  unfold plain, spaceless. rewrite !forallb_forall. intros Hw c Hc.
  specialize (Hw c Hc). unfold plain_char in Hw.
  by apply andb_prop in Hw as [[? _]%andb_prop _].
Qed.

Lemma plain_no_paren w paren :
  paren = "("%char \/ paren = ")"%char ->
  plain w = true ->
  forallb (fun c => negb (Ascii.eqb c paren)) (list_ascii_of_string w) = true.
Proof.
  unfold plain. rewrite !forallb_forall. intros Hparen Hw c Hc.
  specialize (Hw c Hc). unfold plain_char in Hw.
  apply andb_prop in Hw as [[_ Hopen]%andb_prop Hclose].
  by destruct Hparen as [-> | ->].
Qed.

Lemma plain_not_paren w : plain w = true -> is_paren w = false.
Proof.
  unfold is_paren. intros Hw.
  destruct (String.eqb_spec w "(") as [->|_]; [done|].
  by destruct (String.eqb_spec w ")") as [->|_].
Qed.

Lemma digit_plain c :
  match PyStr.digit c with Some _ => true | None => false end = true ->
  plain_char c = true.
Proof.
  destruct c as [[] [] [] [] [] [] [] []]; try discriminate; reflexivity.
Qed.

Lemma str_int_plain z : PyStr.str_int z <> "" /\ plain (PyStr.str_int z) = true.
Proof.
  assert (Hdigits : forall d, plain (NilEmpty.string_of_uint d) = true).
  { intros d. unfold plain. apply forallb_forall. intros c Hc.
    pose proof (string_of_uint_digits_only d) as Hd.
    rewrite forallb_forall in Hd. by apply digit_plain, Hd. }
  unfold PyStr.str_int.
  destruct z as [|p|p]; [done|..]; simpl;
    pose proof (Unsigned.to_uint_nonnil p) as Hne;
    unfold NilZero.string_of_uint.
  - specialize (Hdigits (Pos.to_uint p)).
    by destruct (Pos.to_uint p).
  - split; [done|]. specialize (Hdigits (Pos.to_uint p)).
    destruct (Pos.to_uint p); [done|..];
      (unfold plain; simpl; apply Hdigits).
Qed.

(** *** [tokenize] *)

Lemma tokenize_app_space a b :
  tokenize (a +:+ String " " b) = tokenize a ++ tokenize b.
Proof.
  unfold tokenize.
  rewrite replace_app, (replace_other _ _ " ") by done.
  rewrite replace_app, (replace_other _ _ " ") by done.
  apply split_app_space.
Qed.

Lemma tokenize_plain w : w <> "" -> plain w = true -> tokenize w = [w].
Proof.
  intros Hne Hw. unfold tokenize.
  rewrite (replace_absent "(") by (apply plain_no_paren; auto).
  rewrite (replace_absent ")") by (apply plain_no_paren; auto).
  apply split_word; [done|]. by apply plain_spaceless.
Qed.

Lemma tokenize_parens a :
  tokenize ("(" +:+ a +:+ ")") = "(" :: tokenize a ++ [")"].
Proof.
  unfold tokenize.
  assert (PyStr.replace "(" " ( " ("(" +:+ a +:+ ")")
          = " ( " +:+ (PyStr.replace "(" " ( " a +:+ ")")) as ->.
  { change ("(" +:+ a +:+ ")") with (String "(" (a +:+ ")")).
    by rewrite replace_same, replace_app. }
  rewrite !replace_app.
  change (PyStr.replace ")" " ) " " ( ") with " ( ".
  change (PyStr.replace ")" " ) " ")") with " ) ".
  set (r := PyStr.replace ")" " ) " (PyStr.replace "(" " ( " a)).
  change (PyStr.split ("" +:+ String " "
            ("(" +:+ String " " (r +:+ String " " (")" +:+ String " " ""))))
          = "(" :: PyStr.split r ++ [")"]).
  by rewrite !split_app_space.
Qed.

Lemma tokenize_join l :
  tokenize (PyStr.join " " l) = concat (map tokenize l).
Proof.
  induction l as [|x l IH]; [done|]. destruct l as [|y l].
  - simpl. by rewrite app_nil_r.
  - rewrite join_cons.
    change (x +:+ " " +:+ PyStr.join " " (y :: l))
      with (x +:+ String " " (PyStr.join " " (y :: l))).
    by rewrite tokenize_app_space, IH.
Qed.

Lemma simple_tokens exp :
  simple exp = true ->
  tokenize (lispstr exp) = flatten (tree_of exp)
  /\ leaves_ok (tree_of exp) = true
  /\ expression_of (tree_of exp) = exp.
Proof.
  induction exp as [x|x|s|items IH] using Expression_nested_ind; intros Hsimple.
  - destruct (str_int_plain x) as [Hne Hplain]. simpl.
    rewrite tokenize_plain, plain_not_paren by done.
    unfold parse_atom. by rewrite int_str_int.
  - done.
  - simpl in Hsimple. unfold symbol_token in Hsimple.
    apply andb_prop in Hsimple as [[[Hne Hplain]%andb_prop Hint]%andb_prop Hfloat].
    apply negb_true_iff, String.eqb_neq in Hne. simpl.
    rewrite tokenize_plain, plain_not_paren by done.
    unfold parse_atom.
    destruct (PyStr.int s); [done|]. by destruct (float_of_string s).
  - simpl in Hsimple. cbn [lispstr tree_of flatten leaves_ok expression_of].
    rewrite tokenize_parens, tokenize_join.
    assert (Hall : Forall (fun exp =>
              tokenize (lispstr exp) = flatten (tree_of exp)
              /\ leaves_ok (tree_of exp) = true
              /\ expression_of (tree_of exp) = exp) items).
    { rewrite Forall_forall in IH |- *. intros exp Hexp. apply IH; [done|].
      rewrite forallb_forall in Hsimple. apply Hsimple. by apply list_elem_of_In. }
    clear IH Hsimple. rewrite !map_map.
    induction Hall as [|exp items (Htok & Hok & Hexp) _ (IH1 & IH2 & IH3)];
      [done|].
    simpl. rewrite Htok, Hok, Hexp. simpl.
    injection IH1 as IH1. apply app_inv_tail in IH1. injection IH3 as IH3.
    by rewrite IH1, IH2, IH3.
Qed.

Lemma parse_lispstr exp :
  simple exp = true -> parse (lispstr exp) = Return exp.
Proof.
  intros (Htok & Hok & Hexp)%simple_tokens. unfold parse.
  rewrite Htok, <- (app_nil_r (flatten (tree_of exp))).
  rewrite read_from_tokens_complete; [by rewrite Hexp|done|].
  unfold read_fuel. lia.
Qed.

(** *** [normalize] *)

Lemma collapsed_word w : w <> "" -> spaceless w = true -> collapsed w.
Proof.
  intros Hne Hw. unfold collapsed, normalize.
  by rewrite (split_word w Hne Hw).
Qed.

Lemma collapsed_app_space a b :
  collapsed a -> collapsed b -> collapsed (a +:+ String " " b).
Proof.
  unfold collapsed, normalize. intros [Ha1 Ha2] [Hb1 Hb2].
  rewrite split_app_space. split.
  - by destruct (PyStr.split a).
  - rewrite join_app by done. by rewrite Ha2, Hb2.
Qed.

Lemma lispstr_join_collapsed exp items :
  Forall (fun exp =>
            forall p q, spaceless p = true -> spaceless q = true ->
                        collapsed (p +:+ (lispstr exp +:+ q))) (exp :: items) ->
  forall p q, spaceless p = true -> spaceless q = true ->
    collapsed (p +:+ (PyStr.join " " (map lispstr (exp :: items)) +:+ q)).
Proof.
  revert exp. induction items as [|exp' items IH]; intros exp Hall p q Hp Hq.
  - apply Forall_cons in Hall as [Hexp _]. by apply Hexp.
  - apply Forall_cons in Hall as [Hexp Hall].
    change (map lispstr (exp :: exp' :: items))
      with (lispstr exp :: lispstr exp' :: map lispstr items).
    rewrite join_cons.
    change (lispstr exp' :: map lispstr items)
      with (map lispstr (exp' :: items)).
    set (rest := PyStr.join " " (map lispstr (exp' :: items))).
    assert (p +:+ ((lispstr exp +:+ " " +:+ rest) +:+ q)
            = (p +:+ (lispstr exp +:+ "")) +:+ String " " ("" +:+ (rest +:+ q)))
      as ->.
    { by rewrite !string_app_assoc, !string_app_cons, !string_app_nil_l. }
    apply collapsed_app_space; [by apply Hexp|by apply IH].
Qed.

Lemma lispstr_collapsed exp :
  simple exp = true ->
  forall p q, spaceless p = true -> spaceless q = true ->
    collapsed (p +:+ (lispstr exp +:+ q)).
Proof.
  induction exp as [x|x|s|items IH] using Expression_nested_ind;
    intros Hsimple p q Hp Hq.
  - destruct (str_int_plain x) as [Hne Hplain]. apply collapsed_word.
    + intros [_ [? _]%string_app_eq_nil]%string_app_eq_nil. done.
    + rewrite !spaceless_app, Hp, Hq. by rewrite plain_spaceless.
  - done.
  - simpl in Hsimple. unfold symbol_token in Hsimple.
    apply andb_prop in Hsimple as [[[Hne Hplain]%andb_prop _]%andb_prop _].
    apply negb_true_iff, String.eqb_neq in Hne. apply collapsed_word.
    + intros [_ [? _]%string_app_eq_nil]%string_app_eq_nil. done.
    + rewrite !spaceless_app, Hp, Hq. simpl. by rewrite plain_spaceless.
  - simpl in Hsimple. cbn [lispstr].
    assert (p +:+ (("(" +:+ PyStr.join " " (map lispstr items) +:+ ")") +:+ q)
            = (p +:+ "(") +:+ (PyStr.join " " (map lispstr items) +:+ (")" +:+ q)))
      as -> by (by rewrite !string_app_assoc).
    assert (spaceless (p +:+ "(") = true) as Hp'
      by (by rewrite spaceless_app, Hp).
    assert (spaceless (")" +:+ q) = true) as Hq'
      by (by rewrite spaceless_app, Hq).
    destruct items as [|exp items].
    + apply collapsed_word.
      * intros [[_ ?]%string_app_eq_nil _]%string_app_eq_nil. done.
      * simpl. by rewrite !spaceless_app, Hp, Hq.
    + apply lispstr_join_collapsed; [|done..].
      rewrite Forall_forall in IH |- *. intros exp' Hexp'. apply IH; [done|].
      rewrite forallb_forall in Hsimple. apply Hsimple. by apply list_elem_of_In.
Qed.

(** C9: for every simple canonical source text (the rendering of an
    expression built from integers and symbols), [parse] returns an
    expression whose rendering by [lispstr] is the source text collapsed by
    [normalize], which is the source text itself; [(+ 1 2)] goes round
    unchanged. *)
Theorem lispstr_parse_round_trip :
  (forall source,
      canonical source ->
      exists exp,
        parse source = Return exp
        /\ lispstr exp = normalize source
        /\ normalize source = source)
  /\ (float_of_string "+" = None ->
      canonical "(+ 1 2)"
      /\ lispstr <$> parse "(+ 1 2)" = Return "(+ 1 2)").
Proof.
  split.
  - intros source (exp & Hsimple & ->). exists exp.
    assert (normalize (lispstr exp) = lispstr exp) as Hnormal.
    { pose proof (lispstr_collapsed exp Hsimple "" "" eq_refl eq_refl) as Hc.
      rewrite string_app_nil_l, string_app_nil_r in Hc. apply Hc. }
    split; [by apply parse_lispstr|]. by rewrite Hnormal.
  - intros Hplus.
    assert (simple (List [Sym "+"; Int 1; Int 2]) = true) as Hsimple.
    { simpl. unfold symbol_token. by rewrite Hplus. }
    split.
    + by exists (List [Sym "+"; Int 1; Int 2]).
    + pose proof (parse_lispstr _ Hsimple) as Hparse.
      change (lispstr (List [Sym "+"; Int 1; Int 2])) with "(+ 1 2)" in Hparse.
      by rewrite Hparse.
Qed.

End RoundTripFacts.


(** ** More on the reader *)

Section ReaderTotalFacts.
Context `{Host}.

Lemma read_within_fuel fuel :
  (forall tokens,
      (2 * length tokens + 1 <= fuel)%nat ->
      match read_from_tokens fuel tokens with
      | Return (_, rest) => (length rest < length tokens)%nat
      | Raise e =>
          e = UnexpectedEndOfSource
          \/ (e = UnexpectedCloseParen /\ exists tokens', tokens = ")" :: tokens')
      | OutOfFuel => False
      end)
  /\ (forall exp tokens,
        (2 * length tokens + 2 <= fuel)%nat ->
        match read_list fuel exp tokens with
        | Return (_, rest) => (length rest < length tokens)%nat
        | Raise e => e = UnexpectedEndOfSource
        | OutOfFuel => False
        end).
Proof.
  induction fuel as [|fuel [IHread IHlist]]; [split; intros; lia|]. split.
  - intros [|token tokens] Hfuel; [by left|].
    simpl length in Hfuel. rewrite read_from_tokens_S.
    destruct (String.eqb_spec "(" token) as [<-|_].
    + specialize (IHlist [] tokens ltac:(lia)).
      destruct (read_list fuel [] tokens) as [[e rest]|e|]; [|by left|done].
      simpl. lia.
    + destruct (String.eqb_spec ")" token) as [<-|_]; [|simpl; lia].
      right. split; [done|]. by exists tokens.
  - intros exp [|token tokens] Hfuel; [done|].
    simpl length in Hfuel. rewrite read_list_S.
    destruct (String.eqb_spec token ")") as [->|Hne]; [simpl; lia|].
    specialize (IHread (token :: tokens) ltac:(simpl; lia)).
    destruct (read_from_tokens fuel (token :: tokens)) as [[e rest]|e|];
      [|destruct IHread as [->|[_ [tokens' [= -> _]]]]; done|done].
    rewrite bind_Return. simpl length in IHread.
    specialize (IHlist (exp ++ [e]) rest ltac:(lia)).
    destruct (read_list fuel (exp ++ [e]) rest) as [[e' rest']|e'|];
      [simpl; lia|done|done].
Qed.

(** X1: [parse] always answers: it returns an expression or raises one of
    the two errors of the reader, and it raises [UnexpectedCloseParen] only
    when the first token of the source is a closing parenthesis. *)
Theorem parse_answers source :
  (exists exp, parse source = Return exp)
  \/ parse source = Raise UnexpectedEndOfSource
  \/ (parse source = Raise UnexpectedCloseParen
      /\ exists tokens, tokenize source = ")" :: tokens).
Proof.
  unfold parse.
  pose proof (proj1 (read_within_fuel (read_fuel (tokenize source)))
                (tokenize source)) as Hread.
  unfold read_fuel in Hread at 1. specialize (Hread ltac:(lia)).
  destruct (read_from_tokens _ (tokenize source)) as [[exp rest]|e|];
    [left; by exists exp| |done].
  destruct Hread as [->|[-> Htokens]]; [by right; left|by right; right].
Qed.

Lemma read_sound fuel :
  (forall tokens exp rest,
      read_from_tokens fuel tokens = Return (exp, rest) ->
      exists t,
        leaves_ok t = true /\ tokens = flatten t ++ rest
        /\ exp = expression_of t)
  /\ (forall items tokens exp rest,
        read_list fuel items tokens = Return (exp, rest) ->
        exists children,
          forallb leaves_ok children = true
          /\ tokens = concat (map flatten children) ++ ")" :: rest
          /\ exp = List (items ++ map expression_of children)).
Proof.
  induction fuel as [|fuel [IHread IHlist]]; [split; intros; discriminate|].
  split.
  - intros [|token tokens] exp rest; [discriminate|].
    rewrite read_from_tokens_S.
    destruct (String.eqb_spec "(" token) as [<-|Hopen].
    + intros (children & Hok & -> & ->)%IHlist.
      exists (Node children). split; [done|]. split; [|done].
      simpl. by rewrite <- app_assoc.
    + destruct (String.eqb_spec ")" token) as [<-|Hclose]; [discriminate|].
      intros [= <- <-]. exists (Leaf token). split; [|done].
      simpl. unfold is_paren.
      destruct (String.eqb_spec token "(") as [->|_]; [done|].
      by destruct (String.eqb_spec token ")") as [->|_].
  - intros items [|token tokens] exp rest; [discriminate|].
    rewrite read_list_S.
    destruct (String.eqb_spec token ")") as [->|Hne].
    + intros [= <- <-]. exists []. simpl. by rewrite app_nil_r.
    + destruct (read_from_tokens fuel (token :: tokens)) as [[e rest']|e|] eqn:He;
        [|discriminate..].
      rewrite bind_Return.
      apply IHread in He as (t & Hok & Htokens & ->).
      intros (children & Hoks & -> & ->)%IHlist.
      exists (t :: children). simpl. rewrite Hok, Hoks, Htokens.
      by rewrite <- !app_assoc.
Qed.

(** X2: [parse] returns an expression exactly when the tokens of the source
    start with the tokens of one complete expression; it returns that
    expression and ignores the tokens that follow it. *)
Theorem parse_reads_first_expression source exp :
  parse source = Return exp
  <-> exists t rest,
        leaves_ok t = true /\ tokenize source = flatten t ++ rest
        /\ exp = expression_of t.
Proof.
  unfold parse. split.
  - destruct (read_from_tokens _ (tokenize source)) as [[exp' rest]|e|] eqn:Hread;
      [|discriminate..].
    intros [= <-]. apply (proj1 (read_sound _)) in Hread as (t & Hok & Ht & ->).
    by exists t, rest.
  - intros (t & rest & Hok & Ht & ->).
    rewrite Ht at 2. rewrite read_from_tokens_complete; [done|done|].
    rewrite <- Ht. unfold read_fuel. lia.
Qed.

(** *** The tokens of [tokenize] *)

Lemma flush_token_ok cur : plain cur = true -> Forall token_ok (PyStr.flush cur).
Proof.
  intros Hcur. destruct cur as [|c cur]; constructor; [|constructor].
  split; [done|]. by right; right.
Qed.

Lemma split_from_replaced s :
  forall cur,
    plain cur = true ->
    Forall token_ok
      (PyStr.split_from cur
         (PyStr.replace ")" " ) " (PyStr.replace "(" " ( " s))).
Proof.
  induction s as [|c s IH]; intros cur Hcur; [by apply flush_token_ok|].
  destruct (Ascii.eqb_spec c "(") as [->|Hopen];
    [|destruct (Ascii.eqb_spec c ")") as [->|Hclose]].
  - rewrite replace_same, replace_app.
    change (PyStr.replace ")" " ) " " ( ") with " ( ".
    change (" ( " +:+ ?x) with (String " " (String "(" (String " " x))).
    cbn [PyStr.split_from]. simpl PyStr.is_space. cbn iota.
    apply Forall_app. split; [by apply flush_token_ok|].
    apply Forall_app. split; [|by apply IH].
    constructor; [|constructor]. split; [done|]. by left.
  - rewrite (replace_other "(") by done. rewrite replace_same.
    change (" ) " +:+ ?x) with (String " " (String ")" (String " " x))).
    cbn [PyStr.split_from]. simpl PyStr.is_space. cbn iota.
    apply Forall_app. split; [by apply flush_token_ok|].
    apply Forall_app. split; [|by apply IH].
    constructor; [|constructor]. split; [done|]. by right; left.
  - apply Ascii.eqb_neq in Hopen, Hclose.
    rewrite (replace_other "(") by done. rewrite (replace_other ")") by done.
    cbn [PyStr.split_from]. destruct (PyStr.is_space c) eqn:Hspace.
    + apply Forall_app. split; [by apply flush_token_ok|]. by apply IH.
    + apply IH. rewrite plain_app, Hcur. unfold plain, plain_char. simpl.
      by rewrite Hspace, Hopen, Hclose.
Qed.

(** X3: every token of [tokenize] is non-empty and is either a parenthesis
    on its own or a run of characters without white space and without
    parentheses. *)
Theorem tokenize_tokens source : Forall token_ok (tokenize source).
Proof. by apply split_from_replaced. Qed.


End ReaderTotalFacts.


(** ** Lookup, definition and assignment in environments *)

Section EnvironmentFacts.
Context `{Builtins}.

Lemma Mapping_nested_ind (P : Mapping -> Prop) :
  (forall ref, P (Dict ref)) ->
  (forall maps, Forall P maps -> P (Chain maps)) ->
  forall m, P m.
Proof.
  intros Hdict Hchain. fix IH 1. intros [ref|maps]; [apply Hdict|].
  apply Hchain. induction maps as [|m maps IHmaps];
    constructor; [apply IH|assumption].
Qed.

(** [key in mapping] agrees with [mapping[key]]. *)
Lemma contains_getitem st key m :
  contains st key m = true <-> is_Some (getitem st key m).
Proof.
  induction m as [ref|maps IH] using Mapping_nested_ind.
  - simpl. apply bool_decide_eq_true.
  - simpl. induction IH as [|m maps Hm _ IHmaps]; simpl.
    + split; [done|]. by intros [? ?].
    + rewrite orb_true_iff, Hm, IHmaps.
      destruct (getitem st key m) as [v|]; split; eauto.
      all: try (intros [[? [=]]|?]; done).
Qed.

Lemma not_contains_getitem st key m :
  contains st key m = false -> getitem st key m = None.
Proof.
  intros Hm. destruct (getitem st key m) as [v|] eqn:Hv; [|done].
  assert (contains st key m = true) by (apply contains_getitem; eauto).
  congruence.
Qed.

Lemma getitem_skip st key front maps :
  forallb (fun map => negb (contains st key map)) front = true ->
  getitem st key (Chain (front ++ maps)) = getitem st key (Chain maps).
Proof.
  induction front as [|m front IH]; [done|]. simpl.
  intros [Hm Hfront]%andb_prop. apply negb_true_iff in Hm.
  rewrite (not_contains_getitem _ _ _ Hm). by apply IH.
Qed.

Lemma match_exp_define var value_exp :
  match_exp (List [Sym "define"; Sym var; value_exp]) = CaseDefine var value_exp.
Proof. reflexivity. Qed.

Lemma dict_at_setitem ref key value st ref' :
  dict_at (dict_setitem ref key value st) ref'
  = if decide (ref = ref' /\ (ref < length st)%nat)
    then <[key := value]> (dict_at st ref) else dict_at st ref'.
Proof.
  unfold dict_setitem, dict_at, Store in *. rewrite list_lookup_insert.
  by destruct (decide _).
Qed.

Lemma dict_at_is_Some st ref key :
  is_Some (dict_at st ref !! key) -> (ref < length st)%nat.
Proof.
  unfold dict_at. intros [v Hv]. apply lookup_lt_is_Some.
  unfold Store in *. destruct (st !! ref) eqn:Hst; [by eexists|].
  simpl in Hv. by rewrite lookup_empty in Hv.
Qed.

(** X5: a variable reference raises [UndefinedSymbol] exactly when no map of
    the environment holds the name; otherwise it returns the value of the
    first map that holds it, so that an inner frame shadows the outer ones,
    and the store is left as it is. *)
Theorem variable_reference fuel env st var :
  (contains st var (Chain env) = false
   <-> evaluate (S fuel) (Sym var) env st = Raise (UndefinedSymbol var))
  /\ (forall front map rest v,
        env = front ++ map :: rest ->
        forallb (fun map' => negb (contains st var map')) front = true ->
        getitem st var map = Some v ->
        evaluate (S fuel) (Sym var) env st = Return (v, st)).
Proof.
  rewrite evaluate_S. cbn [match_exp]. split.
  - split.
    + intros Hnone. by rewrite (not_contains_getitem _ _ _ Hnone).
    + destruct (getitem st var (Chain env)) as [v|] eqn:Hv; [discriminate|].
      intros _. destruct (contains st var (Chain env)) eqn:Hc; [|done].
      apply contains_getitem in Hc as [v Hv']. congruence.
  - intros front map rest v -> Hfront Hv.
    rewrite getitem_skip by done. simpl. by rewrite Hv.
Qed.

(** X6: [(define var exp)] in an environment whose first map is a
    dictionary binds [var] there: a reference to [var] then returns the
    value, the other names of that dictionary and all other dictionaries are
    as before, and no dictionary is added. *)
Theorem define_then_reference fuel ref rest st var value_exp v st1 :
  evaluate fuel value_exp (Dict ref :: rest) st = Return (v, st1) ->
  (ref < length st1)%nat ->
  exists st2,
    evaluate (S fuel) (List [Sym "define"; Sym var; value_exp])
      (Dict ref :: rest) st = Return (VNone, st2)
    /\ evaluate (S fuel) (Sym var) (Dict ref :: rest) st2 = Return (v, st2)
    /\ length st2 = length st1
    /\ (forall key, key <> var ->
                    dict_at st2 ref !! key = dict_at st1 ref !! key)
    /\ (forall ref', ref' <> ref -> dict_at st2 ref' = dict_at st1 ref').
Proof.
  intros Hv Href. exists (dict_setitem ref var v st1).
  rewrite !evaluate_S, match_exp_define, Hv. cbn [match_exp].
  split; [done|]. split; [|split; [|split]].
  - simpl. rewrite dict_at_setitem, decide_True by done.
    by rewrite lookup_insert_eq.
  - unfold dict_setitem. apply length_insert.
  - intros key Hkey. rewrite dict_at_setitem, decide_True by done.
    by rewrite lookup_insert_ne.
  - intros ref' Href'. rewrite dict_at_setitem, decide_False; [done|].
    intros [? _]. congruence.
Qed.

Lemma contains_setitem_bound st ref var value key m :
  is_Some (dict_at st ref !! var) ->
  contains (dict_setitem ref var value st) key m = contains st key m.
Proof.
  intros Hbound. pose proof (dict_at_is_Some _ _ _ Hbound) as Href.
  induction m as [ref'|maps IH] using Mapping_nested_ind.
  - simpl. rewrite dict_at_setitem.
    destruct (decide (ref = ref' /\ (ref < length st)%nat)) as [[-> _]|_]; [|done].
    destruct (decide (var = key)) as [->|Hne].
    + rewrite lookup_insert_eq.
      by rewrite !bool_decide_eq_true_2.
    + by rewrite lookup_insert_ne.
  - simpl. induction IH as [|m maps Hm _ IHmaps]; [done|].
    simpl. by rewrite Hm, IHmaps.
Qed.

(** X7: [(set! var exp)] where the first map that holds [var] is a
    dictionary of the environment itself changes the value there: a
    reference to [var] then returns the new value, no mapping gains or
    loses a name, and the other dictionaries are as before. *)
Theorem set_bang_in_place fuel front ref rest st var value_exp v st1 :
  evaluate fuel value_exp (front ++ Dict ref :: rest) st = Return (v, st1) ->
  forallb (fun map => negb (contains st1 var map)) front = true ->
  is_Some (dict_at st1 ref !! var) ->
  exists st2,
    evaluate (S fuel) (List [Sym "set!"; Sym var; value_exp])
      (front ++ Dict ref :: rest) st = Return (VNone, st2)
    /\ evaluate (S fuel) (Sym var) (front ++ Dict ref :: rest) st2
       = Return (v, st2)
    /\ (forall key map, contains st2 key map = contains st1 key map)
    /\ (forall ref', ref' <> ref -> dict_at st2 ref' = dict_at st1 ref').
Proof.
  intros Hv Hfront Hbound. exists (dict_setitem ref var v st1).
  pose proof (dict_at_is_Some _ _ _ Hbound) as Href.
  rewrite !evaluate_S, match_exp_set, Hv, bind_Return. cbn [match_exp].
  rewrite change_in_dict by done.
  split; [done|]. split; [|split].
  - rewrite getitem_skip.
    + simpl. rewrite dict_at_setitem, decide_True by done.
      by rewrite lookup_insert_eq.
    + apply forallb_forall. intros map Hin.
      rewrite contains_setitem_bound by done.
      rewrite forallb_forall in Hfront. by apply Hfront.
  - intros key map. by apply contains_setitem_bound.
  - intros ref' Href'. rewrite dict_at_setitem, decide_False; [done|].
    intros [? _]. congruence.
Qed.

Lemma getitem_app st d key m :
  refs_below (length st) m = true ->
  getitem (st ++ [d]) key m = getitem st key m.
Proof.
  induction m as [ref|maps IH] using Mapping_nested_ind; simpl.
  - intros Href%Nat.ltb_lt. unfold dict_at, Store in *.
    by rewrite lookup_app_l.
  - induction IH as [|m maps Hm _ IHmaps]; [done|]. simpl.
    intros [Hbelow Hmaps]%andb_prop. by rewrite Hm, IHmaps.
Qed.

(** X8: in the environment of an application a name is looked up in the new
    dictionary of the parameters first and otherwise as in the environment
    of the procedure's definition at the time of the call (lexical scope);
    the dictionaries that existed are left as they were. *)
Theorem application_env_scope parms definition_env args st env' st' :
  application_env parms definition_env args st = Return (env', st') ->
  forallb (refs_below (length st)) definition_env = true ->
  exists local_env,
    st' = st ++ [local_env]
    /\ (forall names, parms = Sym <$> names ->
                      local_env = bind_all ∅ (zip names args))
    /\ (forall key,
          getitem st' key (Chain env')
          = match local_env !! key with
            | Some v => Some v
            | None => getitem st key (Chain definition_env)
            end)
    /\ (forall ref, (ref < length st)%nat -> dict_at st' ref = dict_at st ref).
Proof.
  unfold application_env. intros Happ Hbelow.
  destruct (zip_dict parms args ∅) as [local_env| |] eqn:Hzip;
    simpl in Happ; [|discriminate..].
  injection Happ as <- <-. exists local_env. split; [done|]. split; [|split].
  - intros names ->. rewrite zip_dict_symbols in Hzip. by injection Hzip.
  - intros key. cbn [getitem first_some].
    assert (dict_at (st ++ [local_env]) (length st) = local_env) as ->.
    { unfold dict_at, Store in *. by rewrite list_lookup_middle. }
    destruct (local_env !! key); [done|].
    change (first_some (getitem (st ++ [local_env]) key) definition_env)
      with (getitem (st ++ [local_env]) key (Chain definition_env)).
    rewrite (getitem_app st local_env key (Chain definition_env)) by done.
    change (first_some (getitem st key) definition_env)
      with (getitem st key (Chain definition_env)).
    by destruct (getitem st key (Chain definition_env)).
  - intros ref Href. unfold dict_at, Store in *. by rewrite lookup_app_l.
Qed.

End EnvironmentFacts.


(** ** More on evaluation *)

Section EvaluationFacts.
Context `{Builtins}.

(** X9: [(begin exp...)] evaluates its expressions in order and returns the
    value of the last one, with the store that the evaluations leave. *)
Theorem begin_returns_last fuel expressions env st vs st' v :
  eval_args (evaluate fuel) expressions env st = Return (vs, st') ->
  last vs = Some v ->
  evaluate (S fuel) (List (Sym "begin" :: expressions)) env st = Return (v, st').
Proof.
  intros Hvs Hlast.
  assert (expressions <> []) as Hne.
  { intros ->. injection Hvs as <- <-. discriminate. }
  rewrite evaluate_S, match_exp_begin.
  rewrite (begin_is_eval_body (evaluate fuel) expressions env st None Hne).
  rewrite (eval_body_last _ _ _ _ _ _ None Hvs). by rewrite Hlast.
Qed.

(** X10: applying a value that is no procedure and no primitive (a number,
    a symbol, a list, [None], a boolean) raises [EvaluatorException] with
    the rendering of the form, after the operator and the arguments have
    been evaluated. *)
Theorem not_callable_raises_EvaluatorException
  fuel op args env st proc st1 values st2 :
  match_exp (List (op :: args)) = CaseApply op args ->
  evaluate (S fuel) op env st = Return (proc, st1) ->
  eval_args (evaluate (S fuel)) args env st1 = Return (values, st2) ->
  match proc with VProcedure _ _ _ | VBuiltin _ => False | _ => True end ->
  evaluate (S (S fuel)) (List (op :: args)) env st
  = Raise (EvaluatorException (lispstr (List (op :: args)))).
Proof.
  intros Hcase Hproc Hvalues Hnot.
  rewrite evaluate_S, Hcase, Hproc, bind_Return, Hvalues, bind_Return.
  by destruct proc.
Qed.

Lemma zip_dict_TypeError parms args d :
  zip_dict parms args d = Raise TypeError
  <-> exists i items,
        parms !! i = Some (List items) /\ (i < length args)%nat.
Proof.
  revert args d. induction parms as [|p parms IH]; intros args d.
  - split; [done|]. by intros (i & items & Hi & _).
  - destruct args as [|a args].
    + split; [by destruct p|]. intros (i & items & _ & Hlt). simpl in Hlt. lia.
    + assert (forall d',
                zip_dict parms args d' = Raise TypeError
                <-> exists i items,
                      (p :: parms) !! S i = Some (List items)
                      /\ (S i < length (a :: args))%nat) as Htail.
      { intros d'. rewrite IH. simpl. split.
        - intros (i & items & Hi & Hlt). exists i, items. split; [done|lia].
        - intros (i & items & Hi & Hlt). exists i, items. split; [done|lia]. }
      destruct p as [x|x|s|items]; simpl zip_dict.
      * rewrite Htail. split.
        -- intros (i & items & Hi & Hlt). by exists (S i), items.
        -- intros ([|i] & items & Hi & Hlt); [done|]. by exists i, items.
      * rewrite Htail. split.
        -- intros (i & items & Hi & Hlt). by exists (S i), items.
        -- intros ([|i] & items & Hi & Hlt); [done|]. by exists i, items.
      * rewrite Htail. split.
        -- intros (i & items & Hi & Hlt). by exists (S i), items.
        -- intros ([|i] & items & Hi & Hlt); [done|]. by exists i, items.
      * split; [|done]. intros _. exists 0%nat, items. split; [done|].
        simpl. lia.
Qed.

(** X11: [application_env] fails exactly when a parameter that receives an
    argument is a list (a list cannot be a dictionary key), and then with
    [TypeError]; on the trampoline path of [evaluate] this [TypeError] is
    raised as it is, not as an [EvaluatorException]. *)
Theorem application_env_unhashable parms definition_env args st :
  (application_env parms definition_env args st = Raise TypeError
   <-> exists i items,
         parms !! i = Some (List items) /\ (i < length args)%nat)
  /\ (forall e, application_env parms definition_env args st = Raise e ->
                e = TypeError)
  /\ application_env parms definition_env args st <> OutOfFuel
  /\ (forall fuel op operands env st0 st1 body,
        match_exp (List (op :: operands)) = CaseApply op operands ->
        evaluate (S fuel) op env st0
        = Return (VProcedure parms body definition_env, st1) ->
        eval_args (evaluate (S fuel)) operands env st1 = Return (args, st) ->
        (exists i items,
            parms !! i = Some (List items) /\ (i < length args)%nat) ->
        evaluate (S (S fuel)) (List (op :: operands)) env st0 = Raise TypeError).
Proof.
  assert (forall d, (exists d', zip_dict parms args d = Return d')
                    \/ zip_dict parms args d = Raise TypeError) as Hzip.
  { revert args. induction parms as [|p parms IH]; intros args d; [by left; eexists|].
    destruct args as [|a args]; [left; destruct p; by eexists|].
    destruct p; simpl; try apply IH. by right. }
  assert (application_env parms definition_env args st = Raise TypeError
          <-> exists i items,
                parms !! i = Some (List items) /\ (i < length args)%nat) as Hiff.
  { rewrite <- (zip_dict_TypeError parms args ∅). unfold application_env.
    destruct (Hzip ∅) as [[d' ->]| ->]; simpl; split; done. }
  split; [done|]. unfold application_env in *.
  split; [|split].
  - intros e. destruct (Hzip ∅) as [[d' ->]| ->]; simpl; [done|]. by intros [= <-].
  - by destruct (Hzip ∅) as [[d' ->]| ->].
  - intros fuel op operands env st0 st1 body Hcase Hproc Hargs Hlist.
    rewrite evaluate_S, Hcase, Hproc, bind_Return, Hargs, bind_Return.
    unfold TCO_ENABLED. apply Hiff in Hlist.
    unfold application_env. by rewrite Hlist.
Qed.

(** X13: the sugared [(define (name parm...) body...)] does what
    [(define name (lambda (parm...) body...))] does: the same outcome and the
    same store. *)
Theorem define_sugar fuel env st name parms body :
  body <> [] ->
  evaluate (S fuel) (List (Sym "define" :: List (Sym name :: parms) :: body))
    env st
  = evaluate (S (S fuel))
      (List [Sym "define"; Sym name; List (Sym "lambda" :: List parms :: body)])
      env st.
Proof.
  intros Hbody.
  rewrite (define_procedure_captures_env fuel) by done.
  rewrite (evaluate_S (S fuel)), match_exp_define.
  by rewrite (lambda_captures_env fuel) by done.
Qed.

End EvaluationFacts.


(** ** Fuel *)

Section FuelFacts.
Context `{Builtins}.

Section Helpers.
Variables eval eval' : Expression -> Environment -> Store -> Outcome (Value * Store).
Hypothesis eval_le :
  forall exp env st, eval exp env st <> OutOfFuel -> eval' exp env st = eval exp env st.









End Helpers.



End FuelFacts.


(** ** Evaluations on the integer host *)

Import IntegerHost.

(** C1: [set!] is not the [assign] of the design.  On a name that no frame
    binds, [evaluate] lets the [KeyError] of [Environment.change] escape:
    [UndefinedSymbol] is not raised.  And in a procedure applied inside the
    application of another procedure, [set!] on a global name stores a new
    binding in the frame of the outer application (dictionary 1 here) and
    leaves the global binding (dictionary 0) as it was, so that the global
    [x] still evaluates to 0. *)
Theorem set_bang_is_not_assign :
  fst <$> repl 10 ["(set! y 1)"] global_env global_store
  = Raise (KeyError "y")
  /\ (forall var, fst <$> repl 10 ["(set! y 1)"] global_env global_store
                  <> Raise (UndefinedSymbol var))
  /\ match
       repl 10 ["(define x 0)"; "(define (outer) (lambda () (set! x 1)))";
                "((outer))"; "x"] global_env global_store
     with
     | Return (vals, st) =>
         vals = [VNone; VNone; VNone; VInt 0]
         /\ dict_at st 0 !! "x" = Some (VInt 0)
         /\ dict_at st 1 !! "x" = Some (VInt 1)
     | _ => False
     end.
Proof. split; [|split]; [by vm_compute|by vm_compute|]. by vm_compute. Qed.

(** C4: a procedure made by [lambda] or by the sugared [define] holds the
    environment in which it was made, and an application extends that
    environment, whatever the store has become, with a dictionary that did
    not exist before.  So [((make-adder 3) 4)] is 7; the procedures returned
    by two calls of [make-adder] chain to two distinct dictionaries, which
    bind [n] to 3 and to 5, and they answer as before after a global [n] is
    defined.  A binding changed in a shared environment is seen by the
    procedures that hold it. *)
Theorem closure_captures_definition_env :
  (forall (H : Host) (B : Builtins) fuel env st parms body,
      body <> [] ->
      evaluate (S fuel) (List (Sym "lambda" :: List parms :: body)) env st
      = Return (VProcedure parms body env, st))
  /\ (forall (H : Host) (B : Builtins) fuel env st name parms body,
        body <> [] ->
        evaluate (S fuel)
          (List (Sym "define" :: List (Sym name :: parms) :: body)) env st
        = (st' ← setitem (Chain env) name (VProcedure parms body env) st;
           Return (VNone, st')))
  /\ (forall (H : Host) parms definition_env args st env' st',
        application_env parms definition_env args st = Return (env', st') ->
        env' = [Dict (length st); Chain definition_env]
        /\ st !! length st = None
        /\ exists local_env, st' = st ++ [local_env])
  /\ fst <$> repl 20 ["(define (make-adder n) (lambda (x) (+ x n)))";
                      "((make-adder 3) 4)"] global_env global_store
     = Return [VNone; VInt 7]
  /\ match
       repl 20 ["(define (make-adder n) (lambda (x) (+ x n)))";
                "(define add3 (make-adder 3))"; "(define add5 (make-adder 5))";
                "(add3 4)"; "(add5 4)"; "(define n 100)"; "(add3 10)"]
         global_env global_store
     with
     | Return (vals, st) =>
         vals = [VNone; VNone; VNone; VInt 7; VInt 9; VNone; VInt 13]
         /\ dict_at st 0 !! "add3"
            = Some (VProcedure [Sym "x"] [List [Sym "+"; Sym "x"; Sym "n"]]
                      [Dict 1; Chain [Dict 0]])
         /\ dict_at st 0 !! "add5"
            = Some (VProcedure [Sym "x"] [List [Sym "+"; Sym "x"; Sym "n"]]
                      [Dict 2; Chain [Dict 0]])
         /\ dict_at st 1 !! "n" = Some (VInt 3)
         /\ dict_at st 2 !! "n" = Some (VInt 5)
     | _ => False
     end
  /\ fst <$> repl 20 ["(define x 1)"; "(define (get) x)"; "(set! x 2)";
                      "(get)"; "(define x 3)"; "(get)"] global_env global_store
     = Return [VNone; VNone; VNone; VInt 2; VNone; VInt 3].
Proof.
  split; [intros; by apply lambda_captures_env|].
  split; [intros; by apply define_procedure_captures_env|].
  split; [intros H B; by apply application_env_fresh|].
  split; [by vm_compute|]. split; by vm_compute.
Qed.

(** *** Instances of the properties *)

Lemma trampoline_agrees_with_call_witness :
  [Sym "x"] <> []
  /\ ('(env', st') ← application_env [Sym "x"] global_env [VInt 5] global_store;
      evaluate 3 (List (Sym "begin" :: [Sym "x"])) env' st')
     = Procedure_call (evaluate 2) [Sym "x"] [Sym "x"] global_env [VInt 5]
         global_store.
Proof.
  split; [discriminate|].
  apply (proj1 (trampoline_agrees_with_call 2 [Sym "x"] [Sym "x"] global_env
                  ltac:(discriminate))).
Defined.

Lemma application_env_truncates_witness :
  exists local_env,
    application_env [Sym "x"; Sym "y"] global_env [VInt 1] global_store
    = Return ([Dict 1; Chain global_env], global_store ++ [local_env])
    /\ local_env !! "x" = Some (VInt 1)
    /\ local_env !! "y" = None.
Proof.
  destruct (proj2 (application_env_truncates [Sym "x"; Sym "y"] global_env
                     [VInt 1] global_store) ["x"; "y"] eq_refl)
    as (local_env & Henv & _ & Hpositional).
  assert (NoDup ["x"; "y"]) as Hnodup.
  { apply NoDup_cons. split; [|apply NoDup_singleton].
    intros Hin%list_elem_of_singleton. discriminate. }
  exists local_env. split; [exact Henv|]. split.
  - exact (Hpositional Hnodup 0%nat "x" eq_refl).
  - exact (Hpositional Hnodup 1%nat "y" eq_refl).
Defined.

Lemma or_and_short_circuit_witness :
  evaluate 6 (List (Sym "or" :: [Int 0] ++ Int 7 :: [List [Sym "car"; Int 1]]))
    global_env global_store
  = Return (VInt 7, global_store).
Proof.
  apply (proj1 (or_and_short_circuit 5 global_env global_store)
           [Int 0] (Int 7) [List [Sym "car"; Int 1]] [VInt 0] global_store).
  - reflexivity.
  - by repeat constructor.
  - reflexivity.
  - reflexivity.
Defined.

Lemma keyword_form_is_never_applied_witness :
  in_KEYWORDS (Sym "if") = true
  /\ special_form_shape [Sym "if"; Int 1; Int 2] = false
  /\ evaluate 4 (List [Sym "if"; Int 1; Int 2]) global_env global_store
     = Raise (InvalidSyntax (lispstr (List [Sym "if"; Int 1; Int 2]))).
Proof.
  split; [reflexivity|]. split; [reflexivity|].
  apply (proj2 (proj1 (keyword_form_is_never_applied 3 global_env global_store)
                  (Sym "if") [Int 1; Int 2] eq_refl) eq_refl).
Defined.

Lemma reader_errors_witness :
  read_from_tokens (read_fuel ["("; "+"; "1"; "2"]) ["("; "+"; "1"; "2"]
  = Raise UnexpectedEndOfSource.
Proof.
  apply (proj1 (proj2 reader_errors)
           (Node [Leaf "+"; Leaf "1"; Leaf "2"]) ["("; "+"; "1"; "2"] [")"]).
  - reflexivity.
  - reflexivity.
  - discriminate.
Defined.

Lemma cond_first_matching_clause_witness :
  evaluate 6
    (List (Sym "cond"
           :: [List [List [Sym "null?"; List [Sym "list"; Int 1]]; Int 5]]
           ++ List (Sym "else" :: [Int 1; Int 2]) :: [List [Sym "else"; Int 3]]))
    global_env global_store
  = Return (VInt 2, global_store).
Proof.
  apply (proj1 (proj2 (proj2
                  (cond_first_matching_clause 5 global_env global_store)))
           [List [List [Sym "null?"; List [Sym "list"; Int 1]]; Int 5]]
           (Sym "else") [Int 1; Int 2] [List [Sym "else"; Int 3]]
           global_store [VInt 1; VInt 2] global_store (VInt 2)).
  - apply (passed_falsy 5 global_env
             (List [Sym "null?"; List [Sym "list"; Int 1]]) [Int 5] []
             global_store global_store global_store (VBool false)).
    + reflexivity.
    + vm_compute. reflexivity.
    + reflexivity.
    + apply passed_nil.
  - reflexivity.
  - reflexivity.
  - reflexivity.
Defined.

Lemma lispstr_parse_round_trip_witness :
  canonical "(+ 1 2)"
  /\ exists exp,
       parse "(+ 1 2)" = Return exp
       /\ lispstr exp = normalize "(+ 1 2)"
       /\ normalize "(+ 1 2)" = "(+ 1 2)".
Proof.
  assert (canonical "(+ 1 2)") as Hcanonical.
  { exists (List [Sym "+"; Int 1; Int 2]). split; reflexivity. }
  split; [exact Hcanonical|].
  exact (proj1 lispstr_parse_round_trip "(+ 1 2)" Hcanonical).
Defined.

Lemma closure_captures_definition_env_witness :
  [List [Sym "+"; Sym "x"; Sym "n"]] <> []
  /\ evaluate 1
       (List (Sym "lambda" :: List [Sym "x"] :: [List [Sym "+"; Sym "x"; Sym "n"]]))
       [Dict 1; Chain global_env] global_store
     = Return (VProcedure [Sym "x"] [List [Sym "+"; Sym "x"; Sym "n"]]
                 [Dict 1; Chain global_env], global_store).
Proof.
  split; [discriminate|].
  apply (proj1 closure_captures_definition_env host builtins 0%nat
           [Dict 1; Chain global_env] global_store [Sym "x"]
           [List [Sym "+"; Sym "x"; Sym "n"]] ltac:(discriminate)).
Defined.

(** *** Examples *)

Example split_example :
  PyStr.split "  (define   x 10 )  " = ["(define"; "x"; "10"; ")"].
Proof. reflexivity. Qed.

Example int_examples :
  PyStr.int "42" = Some 42 /\ PyStr.int "-7" = Some (-7) /\
  PyStr.int "+1_000" = Some 1000 /\ PyStr.int "007" = Some 7 /\
  PyStr.int "1__0" = None /\ PyStr.int "_1" = None /\ PyStr.int "1_" = None /\
  PyStr.int "+" = None /\ PyStr.int "x1" = None /\ PyStr.int "" = None.
Proof. repeat split; reflexivity. Qed.

Example str_int_examples :
  PyStr.str_int 0 = "0" /\ PyStr.str_int 1203 = "1203"
  /\ PyStr.str_int (-45) = "-45".
Proof. repeat split; reflexivity. Qed.

Example evaluate_examples :
  fst <$> repl 20 ["(+ 1 2)"; "(apply (lambda (x y) (+ x y)) (list 1 2))";
                   "(cond ((null? (list 1)) 5))"; "(and 1 0 (car 1))"]
            global_env global_store
  = Return [VInt 3; VInt 3; VNone; VInt 0].
Proof. by vm_compute. Qed.

(** A [cond] clause without a body is outside the claims above: the loop
    over the empty body leaves [result] unbound. *)
Example cond_empty_body :
  fst <$> repl 20 ["(cond (else))"] global_env global_store
  = Raise UnboundLocalError.
Proof. by vm_compute. Qed.

(** *** More instances *)


Lemma parse_reads_first_expression_witness : parse "1 2" = Return (Int 1).
Proof.
  apply (proj2 (parse_reads_first_expression "1 2" (Int 1))).
  exists (Leaf "1"), ["2"]. repeat split; reflexivity.
Defined.

Lemma variable_reference_witness :
  evaluate 1 (Sym "x") [Dict 0; Dict 1] [{["y" := VInt 1]}; {["x" := VInt 2]}]
  = Return (VInt 2, [{["y" := VInt 1]}; {["x" := VInt 2]}]).
Proof.
  apply (proj2 (variable_reference 0 [Dict 0; Dict 1]
                  [{["y" := VInt 1]}; {["x" := VInt 2]}] "x")
           [Dict 0] (Dict 1) [] (VInt 2)).
  - reflexivity.
  - vm_compute. reflexivity.
  - vm_compute. reflexivity.
Defined.

Lemma define_then_reference_witness :
  exists st2,
    evaluate 2 (List [Sym "define"; Sym "x"; Int 5]) [Dict 0] global_store
    = Return (VNone, st2)
    /\ evaluate 2 (Sym "x") [Dict 0] st2 = Return (VInt 5, st2)
    /\ length st2 = length global_store
    /\ (forall key, key <> "x" ->
                    dict_at st2 0 !! key = dict_at global_store 0 !! key)
    /\ (forall ref', ref' <> 0%nat -> dict_at st2 ref' = dict_at global_store ref').
Proof.
  apply (define_then_reference 1 0 [] global_store "x" (Int 5) (VInt 5)
           global_store).
  - reflexivity.
  - simpl. lia.
Defined.

Lemma set_bang_in_place_witness :
  exists st2,
    evaluate 2 (List [Sym "set!"; Sym "x"; Int 6]) ([] ++ Dict 0 :: [])
      [{["x" := VInt 5]}]
    = Return (VNone, st2)
    /\ evaluate 2 (Sym "x") ([] ++ Dict 0 :: []) st2 = Return (VInt 6, st2)
    /\ (forall key map, contains st2 key map = contains [{["x" := VInt 5]}] key map)
    /\ (forall ref', ref' <> 0%nat ->
                     dict_at st2 ref' = dict_at [{["x" := VInt 5]}] ref').
Proof.
  apply (set_bang_in_place 1 [] 0 [] [{["x" := VInt 5]}] "x" (Int 6) (VInt 6)
           [{["x" := VInt 5]}]).
  - reflexivity.
  - reflexivity.
  - exists (VInt 5). vm_compute. reflexivity.
Defined.

Lemma application_env_scope_witness :
  exists local_env,
    global_store ++ [{["x" := VInt 1]}] = global_store ++ [local_env]
    /\ (forall names, [Sym "x"] = Sym <$> names ->
                      local_env = bind_all ∅ (zip names [VInt 1]))
    /\ (forall key,
          getitem (global_store ++ [{["x" := VInt 1]}]) key
            (Chain [Dict 1; Chain global_env])
          = match local_env !! key with
            | Some v => Some v
            | None => getitem global_store key (Chain global_env)
            end)
    /\ (forall ref, (ref < length global_store)%nat ->
                    dict_at (global_store ++ [{["x" := VInt 1]}]) ref
                    = dict_at global_store ref).
Proof.
  apply (application_env_scope [Sym "x"] global_env [VInt 1] global_store
           [Dict 1; Chain global_env] (global_store ++ [{["x" := VInt 1]}])).
  - reflexivity.
  - reflexivity.
Defined.

Lemma begin_returns_last_witness :
  evaluate 2 (List (Sym "begin" :: [Int 1; Int 2])) global_env global_store
  = Return (VInt 2, global_store).
Proof.
  apply (begin_returns_last 1 [Int 1; Int 2] global_env global_store
           [VInt 1; VInt 2] global_store (VInt 2)); reflexivity.
Defined.

Lemma not_callable_raises_EvaluatorException_witness :
  evaluate 2 (List (Int 1 :: [Int 2])) global_env global_store
  = Raise (EvaluatorException (lispstr (List (Int 1 :: [Int 2])))).
Proof.
  apply (not_callable_raises_EvaluatorException 0 (Int 1) [Int 2] global_env
           global_store (VInt 1) global_store [VInt 2] global_store);
    first [reflexivity | exact I].
Defined.

Lemma application_env_unhashable_witness :
  application_env [List [Sym "a"]] global_env [VInt 1] global_store
  = Raise TypeError.
Proof.
  apply (proj2 (proj1 (application_env_unhashable [List [Sym "a"]] global_env
                         [VInt 1] global_store))).
  exists 0%nat, [Sym "a"]. split; [reflexivity|]. simpl. lia.
Defined.


Lemma define_sugar_witness :
  evaluate 1 (List (Sym "define" :: List (Sym "id" :: [Sym "x"]) :: [Sym "x"]))
    global_env global_store
  = evaluate 2
      (List [Sym "define"; Sym "id";
             List (Sym "lambda" :: List [Sym "x"] :: [Sym "x"])])
      global_env global_store.
Proof.
  apply (define_sugar 0 global_env global_store "id" [Sym "x"] [Sym "x"]).
  discriminate.
Defined.

(** X14: in the standard environment [(+ a b)] on two integer literals
    evaluates to their sum and leaves the store as it is, and [+] on an
    integer and a quoted symbol raises [EvaluatorException]: the
    [TypeError] of the primitive is wrapped, with the rendering of the
    form. *)
Theorem add_in_standard_env a b s :
  evaluate 3 (List [Sym "+"; Int a; Int b]) global_env global_store
  = Return (VInt (a + b), global_store)
  /\ evaluate 3 (List [Sym "+"; Int a; List [Sym "quote"; Sym s]])
       global_env global_store
     = Raise (EvaluatorException
                (lispstr (List [Sym "+"; Int a; List [Sym "quote"; Sym s]]))).
Proof. split; vm_compute; reflexivity. Qed.
